(** * Adaptive weighted character selection (kana-dojo)

    A shallow embedding of [createAdaptiveSelector]: the per-character
    performance records, the six-factor weight, the weighted draw and the
    record updates, followed by the properties of the selector.

    Conventions of the model.
    - JavaScript numbers that hold counters are [nat]; timestamps
      ([Date.now()], milliseconds) are [Z]; weights are mathematical reals
      [R], so IEEE rounding is idealised away.
    - [Map<string, CharacterWeight>] is [gmap string CharacterWeight].
    - [Date.now()] and the [random-js] generator are the two effects of the
      module.  They are supplied by a [Host]; every read of the clock and
      every draw of the generator is counted in the [World], so that "no
      draw happened" is a statement about the world.
    - A JavaScript [undefined] result (indexing past the end of an array)
      is [None]. *)

From Stdlib Require Import Reals Lra ZArith List.
From stdpp Require Import gmap strings list fin_maps.

Local Open Scope R_scope.

(** ** Data model *)

Record CharacterWeight := mkCharacterWeight {
  correct : nat;
  wrong : nat;
  recentMisses : list Z;
  lastSeen : Z;
  consecutiveCorrect : nat;
  consecutiveWrong : nat
}.

(** Field assignments on a record ([existing.f = v]). *)
Definition set_correct (v : nat) (e : CharacterWeight) : CharacterWeight :=
  mkCharacterWeight v (wrong e) (recentMisses e) (lastSeen e)
    (consecutiveCorrect e) (consecutiveWrong e).
Definition set_wrong (v : nat) (e : CharacterWeight) : CharacterWeight :=
  mkCharacterWeight (correct e) v (recentMisses e) (lastSeen e)
    (consecutiveCorrect e) (consecutiveWrong e).
Definition set_recentMisses (v : list Z) (e : CharacterWeight) : CharacterWeight :=
  mkCharacterWeight (correct e) (wrong e) v (lastSeen e)
    (consecutiveCorrect e) (consecutiveWrong e).
Definition set_lastSeen (v : Z) (e : CharacterWeight) : CharacterWeight :=
  mkCharacterWeight (correct e) (wrong e) (recentMisses e) v
    (consecutiveCorrect e) (consecutiveWrong e).
Definition set_consecutiveCorrect (v : nat) (e : CharacterWeight) : CharacterWeight :=
  mkCharacterWeight (correct e) (wrong e) (recentMisses e) (lastSeen e)
    v (consecutiveWrong e).
Definition set_consecutiveWrong (v : nat) (e : CharacterWeight) : CharacterWeight :=
  mkCharacterWeight (correct e) (wrong e) (recentMisses e) (lastSeen e)
    (consecutiveCorrect e) v.

(** ** The host: clock and random generator

    [Date_now k] is the value of the [k]-th read of [Date.now()];
    [random_real k lo hi] is the value of the [k]-th generator call when it
    is [random.real(lo, hi)], and [random_integer k lo hi] when it is
    [random.integer(lo, hi)]. *)

Record Host := mkHost {
  Date_now : nat -> Z;
  random_real : nat -> R -> R -> R;
  random_integer : nat -> Z -> Z -> Z
}.

(** The state a selector instance runs in: its map, and how many clock
    reads and generator calls have been made so far. *)
Record World := mkWorld {
  characterWeights : gmap string CharacterWeight;
  clock_reads : nat;
  rng_calls : nat
}.

(** [createAdaptiveSelector()] starts from an empty map. *)
Definition createAdaptiveSelector : World := mkWorld ∅ 0 0.

(** ** A state monad over [World] *)

Definition M (A : Type) : Type := World -> A * World.

Definition ret {A} (a : A) : M A := fun w => (a, w).
Definition bind {A B} (m : M A) (k : A -> M B) : M B :=
  fun w => let (a, w') := m w in k a w'.

Notation "'do' x <- m ; k" := (bind m (fun x => k))
  (at level 10, x name, m at level 100, k at level 200).

Fixpoint mapM {A B} (f : A -> M B) (l : list A) : M (list B) :=
  match l with
  | [] => ret []
  | a :: l' => do b <- f a; do bs <- mapM f l'; ret (b :: bs)
  end.

Section Effects.
Variable h : Host.

Definition now_ : M Z := fun w =>
  (Date_now h (clock_reads w),
   mkWorld (characterWeights w) (S (clock_reads w)) (rng_calls w)).

Definition real_ (lo hi : R) : M R := fun w =>
  (random_real h (rng_calls w) lo hi,
   mkWorld (characterWeights w) (clock_reads w) (S (rng_calls w))).

Definition integer_ (lo hi : Z) : M Z := fun w =>
  (random_integer h (rng_calls w) lo hi,
   mkWorld (characterWeights w) (clock_reads w) (S (rng_calls w))).
End Effects.

Definition map_get (char : string) : M (option CharacterWeight) :=
  fun w => (characterWeights w !! char, w).

Definition map_set (char : string) (v : CharacterWeight) : M unit :=
  fun w => (tt, mkWorld (<[char := v]> (characterWeights w))
                        (clock_reads w) (rng_calls w)).

Definition map_clear : M unit :=
  fun w => (tt, mkWorld ∅ (clock_reads w) (rng_calls w)).

(** ** The six factors of [calculateWeight] *)

(** [sigmoid(x, steepness, midpoint)]. *)
Definition sigmoid (x steepness midpoint : R) : R :=
  1 / (1 + exp (- steepness * (x - midpoint))).

(** Factor 1. *)
Definition accuracy (correct wrong : nat) : R :=
  let totalAttempts := (correct + wrong)%nat in
  if (0 <? totalAttempts)%nat then INR correct / INR totalAttempts else 0.5.

Definition accuracyWeight (correct wrong : nat) : R :=
  2.5 * sigmoid (0.5 - accuracy correct wrong) 6 0.

(** Factor 2: the callback of the [reduce], then the [reduce] from 0. *)
Definition missStep (now : Z) (acc : R) (missTime : Z) : R :=
  let ageSeconds := IZR (now - missTime) / 1000 in
  if Rlt_dec ageSeconds 30 then acc + 0.5
  else if Rlt_dec ageSeconds 120
       then acc + 0.5 * (1 - (ageSeconds - 30) / 90)
       else acc.

Definition recentMissWeight (now : Z) (recentMisses : list Z) : R :=
  fold_left (missStep now) recentMisses 0.

(** Factor 3. *)
Definition streakPenalty (consecutiveWrong : nat) : R :=
  if (0 <? consecutiveWrong)%nat then 1 + 0.2 * sqrt (INR consecutiveWrong) else 1.

(** Factor 4. *)
Definition masteryCooldown (consecutiveCorrect : nat) : R :=
  if (3 <=? consecutiveCorrect)%nat
  then Rmax 0.15 (1 - 0.15 * Rmin (INR consecutiveCorrect - 2) 5)
  else 1.

(** Factor 5. *)
Definition freshnessBoost (now lastSeen : Z) : R :=
  let timeSinceLastSeen := IZR (now - lastSeen) / 1000 in
  if Rlt_dec timeSinceLastSeen 5 then 0.3 else 1.

(** Factor 6, given the value [u] of [random.real(0, 1)]. *)
Definition explorationFactor (allChars : list string) (u : R) : R :=
  if (20 <? length allChars)%nat then 0.9 + 0.1 * u else 0.8 + 0.2 * u.

Definition finalWeight (e : CharacterWeight) (now : Z)
    (allChars : list string) (u : R) : R :=
  accuracyWeight (correct e) (wrong e)
  * (1 + recentMissWeight now (recentMisses e))
  * streakPenalty (consecutiveWrong e)
  * masteryCooldown (consecutiveCorrect e)
  * freshnessBoost now (lastSeen e)
  * explorationFactor allChars u.

(** [Math.max(0.1, Math.min(5.0, x))]. *)
Definition clamp (x : R) : R := Rmax 0.1 (Rmin 5 x).

(** ** The operations of a selector instance *)

Section Selector.
Variable h : Host.

Definition calculateWeight (char : string) (allChars : list string) : M R :=
  do weight <- map_get char;
  do now <- now_ h;
  match weight with
  | None => ret 1
  | Some e =>
      do u <- real_ h 0 1;
      ret (clamp (finalWeight e now allChars u))
  end.

(** Truthiness of the optional argument: [undefined] and the empty
    string are falsy. *)
Definition truthy (excludeChar : option string) : bool :=
  match excludeChar with
  | None => false
  | Some s => negb (String.eqb s EmptyString)
  end.

Definition availableChars (chars : list string)
    (excludeChar : option string) : list string :=
  match excludeChar with
  | Some x =>
      if truthy excludeChar
      then List.filter (fun c => negb (String.eqb c x)) chars
      else chars
  | None => chars
  end.

(** The [for ... of] loop: [Some char] when the loop returns at [char],
    [None] when it runs off the end of [weights]. *)
Fixpoint walk (weights : list (string * R)) (randomValue : R) : option string :=
  match weights with
  | [] => None
  | (char, weight) :: rest =>
      let randomValue := randomValue - weight in
      if Rle_dec randomValue 0 then Some char else walk rest randomValue
  end.

Definition totalWeight (weights : list (string * R)) : R :=
  fold_left (fun sum w => sum + snd w) weights 0.

(** [arr[i]] for a JavaScript number [i] holding an integer. *)
Definition index {A} (arr : list A) (i : Z) : option A :=
  if (i <? 0)%Z then None else nth_error arr (Z.to_nat i).

Definition selectWeightedCharacter (chars : list string)
    (excludeChar : option string) : M (option string) :=
  let available := availableChars chars excludeChar in
  if (length available =? 0)%nat then ret (index chars 0)
  else if (length available =? 1)%nat then ret (index available 0)
  else
    do weights <- mapM (fun char =>
                    do weight <- calculateWeight char chars;
                    ret (char, weight)) available;
    do randomValue <- real_ h 0 (totalWeight weights);
    match walk weights randomValue with
    | Some char => ret (Some char)
    | None =>
        do i <- integer_ h 0 (Z.of_nat (length available) - 1);
        ret (index available i)
    end.

(** The record object held by the map is mutated in place in the source;
    here each assignment rebinds [existing] and the result is written back
    under the same key. *)
Definition updateCharacterWeight (char : string) (isCorrect : bool) : M unit :=
  do now <- now_ h;
  do existing <- map_get char;
  match existing with
  | None =>
      map_set char
        {| correct := if isCorrect then 1 else 0;
           wrong := if isCorrect then 0 else 1;
           recentMisses := if isCorrect then [] else [now];
           lastSeen := now;
           consecutiveCorrect := if isCorrect then 1 else 0;
           consecutiveWrong := if isCorrect then 0 else 1 |}
  | Some existing =>
      let existing :=
        if isCorrect then
          let existing := set_correct (correct existing + 1) existing in
          let existing :=
            set_consecutiveCorrect (consecutiveCorrect existing + 1) existing in
          set_consecutiveWrong 0 existing
        else
          let existing := set_wrong (wrong existing + 1) existing in
          let existing :=
            set_consecutiveWrong (consecutiveWrong existing + 1) existing in
          let existing := set_consecutiveCorrect 0 existing in
          let existing :=
            set_recentMisses (recentMisses existing ++ [now]) existing in
          set_recentMisses
            (List.filter (fun t => (now - t <? 120000)%Z) (recentMisses existing))
            existing in
      map_set char (set_lastSeen now existing)
  end.

Definition markCharacterSeen (char : string) : M unit :=
  do now <- now_ h;
  do existing <- map_get char;
  match existing with
  | Some existing => map_set char (set_lastSeen now existing)
  | None =>
      map_set char
        {| correct := 0; wrong := 0; recentMisses := []; lastSeen := now;
           consecutiveCorrect := 0; consecutiveWrong := 0 |}
  end.

Definition reset : M unit := map_clear.

Definition getCharacterWeight (char : string) : M (option CharacterWeight) :=
  map_get char.

(** *** Call sequences *)

Inductive Call :=
| CallSelect (chars : list string) (excludeChar : option string)
| CallUpdate (char : string) (isCorrect : bool)
| CallMarkSeen (char : string)
| CallReset
| CallGet (char : string).

Definition run_call (c : Call) (w : World) : World :=
  match c with
  | CallSelect chars excludeChar => snd (selectWeightedCharacter chars excludeChar w)
  | CallUpdate char isCorrect => snd (updateCharacterWeight char isCorrect w)
  | CallMarkSeen char => snd (markCharacterSeen char w)
  | CallReset => snd (reset w)
  | CallGet char => snd (getCharacterWeight char w)
  end.

Definition run_calls (cs : list Call) (w : World) : World :=
  fold_left (fun w c => run_call c w) cs w.
End Selector.

(** ** Example hosts

    A host whose generator always returns the lower end of the requested
    range (a value [random.real(lo, hi)] and [random.integer(lo, hi)] can
    produce), with a given clock. *)
Definition lowest_draw_host (clock : nat -> Z) : Host :=
  mkHost clock (fun _ lo _ => lo) (fun _ lo _ => lo).

(** The clock advances by 10 seconds between consecutive reads. *)
Definition slow_host : Host :=
  lowest_draw_host (fun k => (Z.of_nat k * 10000)%Z).

(** The clock does not advance at all. *)
Definition instant_host : Host := lowest_draw_host (fun _ => 0%Z).

(** ** Definitions used to state the properties *)

(** [x] is within 5% of [target]. *)
Definition within_5_percent (target x : R) : Prop :=
  0.95 * target <= x <= 1.05 * target.

(** The misses of the trailing 120 seconds before [now]. *)
Definition pruned (now : Z) (misses : list Z) : list Z :=
  List.filter (fun t => (now - t <? 120000)%Z) misses.

(** The record that the specification asks for after an answer at time
    [now], written from its wording: a fresh record is seeded from the
    outcome; an existing one has the matching lifetime counter and the
    matching run incremented and the opposite run reset, and on a wrong
    answer the miss list is extended by [now] and pruned; [lastSeen] is
    [now] in every case. *)
Definition recordAnswer_spec (now : Z) (isCorrect : bool)
    (existing : option CharacterWeight) : CharacterWeight :=
  match existing, isCorrect with
  | None, true => mkCharacterWeight 1 0 [] now 1 0
  | None, false => mkCharacterWeight 0 1 [now] now 0 1
  | Some e, true =>
      mkCharacterWeight (correct e + 1) (wrong e) (recentMisses e) now
        (consecutiveCorrect e + 1) 0
  | Some e, false =>
      mkCharacterWeight (correct e) (wrong e + 1)
        (pruned now (recentMisses e ++ [now])) now
        0 (consecutiveWrong e + 1)
  end.

(** At most one of the two runs of a record is nonzero. *)
Definition runs_exclusive (e : CharacterWeight) : Prop :=
  consecutiveCorrect e = 0%nat \/ consecutiveWrong e = 0%nat.

(** The pool of the end-to-end scenario. *)
Definition pool_a_i_u : list string := ["あ"; "い"; "う"].

(** The world after [updateCharacterWeight("あ", false)] three times on a
    fresh selector. *)
Definition three_misses (h : Host) : World :=
  run_calls h
    [CallUpdate "あ" false; CallUpdate "あ" false; CallUpdate "あ" false]
    createAdaptiveSelector.


(** The contract of [random.integer(lo, hi)]: an integer of the closed
    range. *)
Definition integer_in_range (h : Host) : Prop :=
  forall (k : nat) (lo hi : Z),
    (lo <= hi)%Z -> (lo <= random_integer h k lo hi <= hi)%Z.

(** The lifetime counters bound the runs and the miss list. *)
Definition counters_consistent (e : CharacterWeight) : Prop :=
  (consecutiveCorrect e <= correct e)%nat /\
  (consecutiveWrong e <= wrong e)%nat /\
  (length (recentMisses e) <= wrong e)%nat.

(** [n] answers with the same outcome for one character, in a row. *)
Definition answers (char : string) (isCorrect : bool) (n : nat) : list Call :=
  repeat (CallUpdate char isCorrect) n.

(** ** The module-level selector

    The module keeps one variable, [globalSelector], that is [null] or
    refers to a selector instance.  Instances are closures over their own
    map: the [Program] holds the map of every instance created so far under
    its reference, the reference the next instance will get, the variable,
    and the two counters of the host, which all instances share. *)

Record Program := mkProgram {
  instances : gmap nat (gmap string CharacterWeight);
  next_instance : nat;
  globalSelector : option nat;
  program_clock_reads : nat;
  program_rng_calls : nat
}.

(** [createAdaptiveSelector()] as an allocation: a new instance with an
    empty map. *)
Definition createAdaptiveSelector_in (p : Program) : nat * Program :=
  (next_instance p,
   mkProgram (<[next_instance p := ∅]> (instances p)) (S (next_instance p))
     (globalSelector p) (program_clock_reads p) (program_rng_calls p)).

(** Calling a method of the instance [ref]: the method runs on the map of
    that instance.  [None] when [ref] was never created. *)
Definition call_method {A} (ref : nat) (method : M A) (p : Program)
    : option (A * Program) :=
  match instances p !! ref with
  | None => None
  | Some weights =>
      let (a, w') :=
        method (mkWorld weights (program_clock_reads p) (program_rng_calls p)) in
      Some (a, mkProgram (<[ref := characterWeights w']> (instances p))
                 (next_instance p) (globalSelector p)
                 (clock_reads w') (rng_calls w'))
  end.

Definition getGlobalAdaptiveSelector (p : Program) : nat * Program :=
  match globalSelector p with
  | Some ref => (ref, p)
  | None =>
      let (ref, p') := createAdaptiveSelector_in p in
      (ref, mkProgram (instances p') (next_instance p') (Some ref)
              (program_clock_reads p') (program_rng_calls p'))
  end.

Definition resetGlobalAdaptiveSelector (p : Program) : Program :=
  match globalSelector p with
  | Some ref =>
      match call_method ref reset p with
      | Some (_, p') => p'
      | None => p
      end
  | None => p
  end.

(** References handed out so far are below [next_instance], and the
    variable refers to a created instance. *)
Definition program_ok (p : Program) : Prop :=
  (forall ref : nat, is_Some (instances p !! ref) -> (ref < next_instance p)%nat) /\
  (forall ref : nat, globalSelector p = Some ref -> is_Some (instances p !! ref)).

(** The program when the module has just been loaded. *)
Definition module_loaded : Program := mkProgram ∅ 0 None 0 0.

(** ** Properties *)

(** *** The clamp and the weight bounds *)

Lemma clamp_bounds (x : R) : 0.1 <= clamp x <= 5.
Proof.
  unfold clamp. split.
  - apply Rmax_l.
  - apply Rmax_lub; [lra | apply Rmin_l].
Qed.

Lemma clamp_id (x : R) : 0.1 <= x <= 5 -> clamp x = x.
Proof.
  intros [Hlo Hhi]. unfold clamp.
  rewrite (Rmin_right 5 x) by lra. apply Rmax_right. lra.
Qed.


(** What one call of [calculateWeight] computes and what it consumes:
    always one clock read, and one generator call exactly when the
    character is tracked. *)
Lemma calculateWeight_run (h : Host) (char : string) (allChars : list string)
    (w : World) :
  calculateWeight h char allChars w =
  match characterWeights w !! char with
  | None =>
      (1, mkWorld (characterWeights w) (S (clock_reads w)) (rng_calls w))
  | Some e =>
      (clamp (finalWeight e (Date_now h (clock_reads w)) allChars
                (random_real h (rng_calls w) 0 1)),
       mkWorld (characterWeights w) (S (clock_reads w)) (S (rng_calls w)))
  end.
Proof.
  unfold calculateWeight, bind, map_get, now_, real_, ret. simpl.
  destruct (characterWeights w !! char); reflexivity.
Qed.

(** C1. For every host (clock values and generator draws), every world
    (whether or not it holds a record for [char]), and every pool, the
    weight returned by [calculateWeight] lies in the closed interval
    [0.1, 5.0]. *)
Theorem calculateWeight_bounds (h : Host) (char : string)
    (allChars : list string) (w : World) :
  0.1 <= fst (calculateWeight h char allChars w) <= 5.
Proof.
  rewrite calculateWeight_run.
  destruct (characterWeights w !! char) as [e|]; simpl.
  - apply clamp_bounds.
  - lra.
Qed.

(** *** Factor 4: the mastery cooldown *)

(** The [max]/[min] of the source in closed form: a ramp from 0.85 at a
    run of 3 down to 0.25 at a run of 7, where the inner [min] caps it (the
    outer floor 0.15 is never reached). *)
Lemma masteryCooldown_closed (n : nat) :
  masteryCooldown n =
  if (n <? 3)%nat then 1
  else if (n <? 7)%nat then 1 - 0.15 * (INR n - 2) else 0.25.
Proof.
  unfold masteryCooldown.
  destruct (Nat.ltb_spec n 3) as [Hlt|Hge].
  - destruct (Nat.leb_spec 3 n); [lia | reflexivity].
  - destruct (Nat.leb_spec 3 n); [| lia].
    assert (H3 : 3 <= INR n) by (apply (le_INR 3) in Hge; simpl in Hge; lra).
    destruct (Nat.ltb_spec n 7) as [Hlt7|Hge7].
    + assert (H6 : INR n <= 6)
        by (assert (Hn : (n <= 6)%nat) by lia;
            apply (le_INR n 6) in Hn; simpl in Hn; lra).
      rewrite Rmin_left by lra. apply Rmax_right. lra.
    + assert (H7 : 7 <= INR n) by (apply (le_INR 7) in Hge7; simpl in Hge7; lra).
      rewrite Rmin_right by lra. rewrite Rmax_right by lra. lra.
Qed.

Lemma masteryCooldown_antitone (n m : nat) :
  (n <= m)%nat -> masteryCooldown m <= masteryCooldown n.
Proof.
  intros Hnm. rewrite !masteryCooldown_closed.
  pose proof (le_INR n m Hnm) as Hle.
  destruct (Nat.ltb_spec n 3) as [Hn3|Hn3], (Nat.ltb_spec m 3) as [Hm3|Hm3];
    try lia; try lra.
  - assert (H3 : 3 <= INR m) by (apply (le_INR 3) in Hm3; simpl in Hm3; lra).
    destruct (Nat.ltb_spec m 7); lra.
  - assert (H6 : (n < 7)%nat -> INR n <= 6)
      by (intros Hn; assert (Hn' : (n <= 6)%nat) by lia;
          apply (le_INR n 6) in Hn'; simpl in Hn'; lra).
    destruct (Nat.ltb_spec n 7) as [Hn7|Hn7], (Nat.ltb_spec m 7) as [Hm7|Hm7];
      try lia; try lra.
    specialize (H6 Hn7). lra.
Qed.

(** C9. The mastery-cooldown factor is
    [max(0.15, 1 - 0.15 * min(consecutiveCorrect - 2, 5))] from a run of 3
    on and 1 below; at a run of 3 it is at most 1; it never increases as
    the run grows; and from a run of 7 on it is constant. *)
Theorem masteryCooldown_suppression :
  (forall n : nat, (3 <= n)%nat ->
     masteryCooldown n = Rmax 0.15 (1 - 0.15 * Rmin (INR n - 2) 5)) /\
  (forall n : nat, (n < 3)%nat -> masteryCooldown n = 1) /\
  masteryCooldown 3 <= 1 /\
  (forall n m : nat, (n <= m)%nat -> (m <= 7)%nat ->
     masteryCooldown m <= masteryCooldown n) /\
  (forall n : nat, (7 <= n)%nat -> masteryCooldown n = masteryCooldown 7).
Proof.
  split; [| split; [| split; [| split]]].
  - intros n Hn. unfold masteryCooldown.
    destruct (Nat.leb_spec 3 n); [reflexivity | lia].
  - intros n Hn. unfold masteryCooldown.
    destruct (Nat.leb_spec 3 n); [lia | reflexivity].
  - rewrite masteryCooldown_closed. simpl. lra.
  - intros n m Hnm _. apply masteryCooldown_antitone. exact Hnm.
  - intros n Hn. rewrite !masteryCooldown_closed.
    destruct (Nat.ltb_spec n 3); [lia |].
    destruct (Nat.ltb_spec n 7); [lia |]. reflexivity.
Qed.

Lemma masteryCooldown_suppression_witness :
  masteryCooldown 5 = Rmax 0.15 (1 - 0.15 * Rmin (INR 5 - 2) 5) /\
  masteryCooldown 2 = 1 /\
  masteryCooldown 6 <= masteryCooldown 4 /\
  masteryCooldown 9 = masteryCooldown 7.
Proof.
  destruct masteryCooldown_suppression as (Hformula & Hbelow & _ & Hanti & Hflat).
  split; [| split; [| split]].
  - apply (Hformula 5%nat). lia.
  - apply (Hbelow 2%nat). lia.
  - apply (Hanti 4%nat 6%nat); lia.
  - apply (Hflat 9%nat). lia.
Defined.

(** *** Factor 1: the accuracy curve *)

Lemma exp_double (x : R) : exp (2 * x) = exp x * exp x.
Proof. replace (2 * x) with (x + x) by lra. apply exp_plus. Qed.

(** A lower bound for [exp 3], from [1 + x <= exp x] at [x = 3/256] and
    eight squarings. *)
Lemma exp_3_lower : 19 <= exp 3.
Proof.
  pose proof (exp_ineq1_le (3 / 256)) as H0.
  assert (H1 : 1.0235 <= exp (3 / 128)).
  { replace (3 / 128) with (2 * (3 / 256)) by lra. rewrite exp_double. nra. }
  assert (H2 : 1.0475 <= exp (3 / 64)).
  { replace (3 / 64) with (2 * (3 / 128)) by lra. rewrite exp_double. nra. }
  assert (H3 : 1.0972 <= exp (3 / 32)).
  { replace (3 / 32) with (2 * (3 / 64)) by lra. rewrite exp_double. nra. }
  assert (H4 : 1.2038 <= exp (3 / 16)).
  { replace (3 / 16) with (2 * (3 / 32)) by lra. rewrite exp_double. nra. }
  assert (H5 : 1.4491 <= exp (3 / 8)).
  { replace (3 / 8) with (2 * (3 / 16)) by lra. rewrite exp_double. nra. }
  assert (H6 : 2.0998 <= exp (3 / 4)).
  { replace (3 / 4) with (2 * (3 / 8)) by lra. rewrite exp_double. nra. }
  assert (H7 : 4.409 <= exp (3 / 2)).
  { replace (3 / 2) with (2 * (3 / 4)) by lra. rewrite exp_double. nra. }
  replace 3 with (2 * (3 / 2)) by lra. rewrite exp_double. nra.
Qed.

Lemma exp_neg_3_upper : exp (- 3) <= / 19.
Proof.
  replace (- 3) with (Ropp 3) by lra.
  rewrite exp_Ropp. apply Rinv_le_contravar; [lra | apply exp_3_lower].
Qed.

(** The factor as a function of the accuracy alone. *)
Lemma accuracyWeight_of_accuracy (c w : nat) :
  accuracyWeight c w = 2.5 / (1 + exp (6 * accuracy c w - 3)).
Proof.
  unfold accuracyWeight, sigmoid.
  replace (- (6) * (0.5 - accuracy c w - 0)) with (6 * accuracy c w - 3) by lra.
  lra.
Qed.

Lemma accuracyWeight_at_0 : accuracyWeight 0 1 = 2.5 / (1 + exp (- 3)).
Proof.
  rewrite accuracyWeight_of_accuracy. unfold accuracy. simpl.
  replace (6 * (0 / 1) - 3) with (- 3) by lra. reflexivity.
Qed.

Lemma accuracyWeight_at_half : accuracyWeight 1 1 = 1.25.
Proof.
  rewrite accuracyWeight_of_accuracy. unfold accuracy. simpl.
  replace (6 * (1 / (1 + 1)) - 3) with 0 by lra. rewrite exp_0. lra.
Qed.

Lemma accuracyWeight_at_1 : accuracyWeight 1 0 = 2.5 / (1 + exp 3).
Proof.
  rewrite accuracyWeight_of_accuracy. unfold accuracy. simpl.
  replace (6 * (1 / 1) - 3) with 3 by lra. reflexivity.
Qed.

Lemma accuracyWeight_no_attempts : accuracyWeight 0 0 = 1.25.
Proof.
  rewrite accuracyWeight_of_accuracy. unfold accuracy. simpl.
  replace (6 * 0.5 - 3) with 0 by lra. rewrite exp_0. lra.
Qed.

(** C2 (evaluation of the code at the three calibration points). The
    accuracy factor is [2.5 * sigmoid(0.5 - accuracy, 6, 0)], with accuracy
    0.5 when there are no attempts.  It is within 5% of 2.5 at 0% accuracy,
    but it is exactly 1.25 at 50% accuracy, which is not within 5% of 1.5,
    and at most 0.125 at 100% accuracy, which is not within 5% of 0.3. *)
Theorem accuracyWeight_calibration :
  (forall c w : nat,
     accuracyWeight c w = 2.5 * sigmoid (0.5 - accuracy c w) 6 0) /\
  accuracy 0 0 = 0.5 /\
  within_5_percent 2.5 (accuracyWeight 0 1) /\
  accuracyWeight 1 1 = 1.25 /\
  ~ within_5_percent 1.5 (accuracyWeight 1 1) /\
  accuracyWeight 1 0 <= 0.125 /\
  ~ within_5_percent 0.3 (accuracyWeight 1 0).
Proof.
  pose proof exp_3_lower as He3.
  pose proof exp_neg_3_upper as Hen3.
  pose proof (exp_pos (- 3)) as Hpos.
  assert (H1 : accuracyWeight 1 0 <= 0.125).
  { rewrite accuracyWeight_at_1.
    apply (Rmult_le_reg_r (1 + exp 3)); [lra |].
    unfold Rdiv. rewrite Rmult_assoc, Rinv_l by lra. lra. }
  split; [reflexivity |]. split; [reflexivity |].
  split; [| split; [| split; [| split]]].
  - rewrite accuracyWeight_at_0. unfold within_5_percent. split.
    + apply (Rmult_le_reg_r (1 + exp (- 3))); [lra |].
      unfold Rdiv. rewrite (Rmult_assoc 2.5), Rinv_l by lra. lra.
    + apply (Rmult_le_reg_r (1 + exp (- 3))); [lra |].
      unfold Rdiv. rewrite (Rmult_assoc 2.5), Rinv_l by lra. lra.
  - apply accuracyWeight_at_half.
  - rewrite accuracyWeight_at_half. unfold within_5_percent. lra.
  - exact H1.
  - unfold within_5_percent. lra.
Qed.

(** *** Recording an answer *)

Lemma updateCharacterWeight_run (h : Host) (char : string) (isCorrect : bool)
    (w : World) :
  updateCharacterWeight h char isCorrect w =
  (tt, mkWorld
         (<[char := recordAnswer_spec (Date_now h (clock_reads w)) isCorrect
                      (characterWeights w !! char)]> (characterWeights w))
         (S (clock_reads w)) (rng_calls w)).
Proof.
  unfold updateCharacterWeight, bind, now_, map_get, map_set. simpl.
  destruct (characterWeights w !! char) as [e|], isCorrect; reflexivity.
Qed.

Lemma markCharacterSeen_run (h : Host) (char : string) (w : World) :
  markCharacterSeen h char w =
  (tt, mkWorld
         (<[char := match characterWeights w !! char with
                    | Some e => set_lastSeen (Date_now h (clock_reads w)) e
                    | None =>
                        mkCharacterWeight 0 0 [] (Date_now h (clock_reads w)) 0 0
                    end]> (characterWeights w))
         (S (clock_reads w)) (rng_calls w)).
Proof.
  unfold markCharacterSeen, bind, now_, map_get, map_set. simpl.
  destruct (characterWeights w !! char) as [e|]; reflexivity.
Qed.

Lemma pruned_In (now t : Z) (misses : list Z) :
  In t (pruned now misses) <-> In t misses /\ (now - t < 120000)%Z.
Proof.
  unfold pruned. rewrite filter_In.
  destruct (Z.ltb_spec (now - t) 120000); intuition (try lia; congruence).
Qed.

(** C3. [updateCharacterWeight char isCorrect], run at clock value [now],
    reads the clock once, draws nothing, and stores for [char] the record
    of [recordAnswer_spec]: seeded from the outcome when there was none
    (1/0 or 0/1 for the lifetime counters and for the runs, [[now]] as the
    miss list when wrong), and otherwise the old record with the matching
    lifetime counter and run incremented, the opposite run set to 0, and on
    a wrong answer [now] appended to the miss list and the list pruned;
    [lastSeen] is [now] in every case and no other character's record
    changes.  Pruning keeps exactly the entries [t] with
    [now - t < 120000], so no entry older than 120 seconds survives, every
    younger one does, and [now] itself is always in the list. *)
Theorem updateCharacterWeight_spec (h : Host) (char : string)
    (isCorrect : bool) (w : World) :
  let now := Date_now h (clock_reads w) in
  let w' := snd (updateCharacterWeight h char isCorrect w) in
  characterWeights w' !! char =
    Some (recordAnswer_spec now isCorrect (characterWeights w !! char)) /\
  lastSeen (recordAnswer_spec now isCorrect (characterWeights w !! char)) = now /\
  (forall other : string, other <> char ->
     characterWeights w' !! other = characterWeights w !! other) /\
  clock_reads w' = S (clock_reads w) /\ rng_calls w' = rng_calls w /\
  (forall (e : CharacterWeight) (t : Z),
     let misses := recentMisses (recordAnswer_spec now false (Some e)) in
     In now misses /\
     ((now - t > 120000)%Z -> ~ In t misses) /\
     (In t (recentMisses e) -> (now - t < 120000)%Z -> In t misses)).
Proof.
  intros now w'. subst w'. rewrite updateCharacterWeight_run. simpl.
  fold now.
  split; [apply lookup_insert_eq |].
  split; [destruct (characterWeights w !! char), isCorrect; reflexivity |].
  split; [intros other Hne; apply lookup_insert_ne; congruence |].
  split; [reflexivity |]. split; [reflexivity |].
  intros e t. simpl. rewrite !pruned_In, !in_app_iff. simpl.
  split; [split; [right; left; reflexivity | lia] |].
  split; [intros Hold [_ Hlt]; lia |].
  intros Hin Hlt. split; [left; exact Hin | exact Hlt].
Qed.

Lemma updateCharacterWeight_spec_witness :
  characterWeights
    (snd (updateCharacterWeight instant_host "あ" false createAdaptiveSelector))
    !! "い" = None /\
  ~ In (-130000)%Z
      (recentMisses
         (recordAnswer_spec 0 false (Some (mkCharacterWeight 0 1 [0%Z] 0 0 1)))) /\
  In 0%Z
     (recentMisses
        (recordAnswer_spec 0 false (Some (mkCharacterWeight 0 1 [0%Z] 0 0 1)))).
Proof.
  pose proof (updateCharacterWeight_spec instant_host "あ" false
                createAdaptiveSelector) as H.
  cbv zeta in H. destruct H as (_ & _ & Hother & _ & _ & Hprune).
  split.
  - rewrite (Hother "い"); [reflexivity | discriminate].
  - destruct (Hprune (mkCharacterWeight 0 1 [0%Z] 0 0 1) (-130000)%Z)
      as (_ & Hold & _).
    destruct (Hprune (mkCharacterWeight 0 1 [0%Z] 0 0 1) 0%Z)
      as (_ & _ & Hkeep).
    split.
    + apply Hold. simpl. lia.
    + apply Hkeep; simpl; [left; reflexivity | lia].
Defined.

(** *** Untracked characters *)

(** C5 (amended). When no record exists for [char], [calculateWeight]
    returns exactly 1 and draws nothing from the generator; when a record
    [e] exists, it returns the clamped six-factor product for [e], the
    clock value and one jitter draw.  (That product can itself be 1, so a
    weight of 1 does not identify an untracked character.) *)
Theorem calculateWeight_untracked (h : Host) (char : string)
    (allChars : list string) (w : World) :
  (characterWeights w !! char = None ->
     fst (calculateWeight h char allChars w) = 1 /\
     rng_calls (snd (calculateWeight h char allChars w)) = rng_calls w) /\
  (forall e : CharacterWeight, characterWeights w !! char = Some e ->
     fst (calculateWeight h char allChars w) =
       clamp (accuracyWeight (correct e) (wrong e)
              * (1 + recentMissWeight (Date_now h (clock_reads w)) (recentMisses e))
              * streakPenalty (consecutiveWrong e)
              * masteryCooldown (consecutiveCorrect e)
              * freshnessBoost (Date_now h (clock_reads w)) (lastSeen e)
              * explorationFactor allChars (random_real h (rng_calls w) 0 1)) /\
     rng_calls (snd (calculateWeight h char allChars w)) = S (rng_calls w)).
Proof.
  rewrite calculateWeight_run. split.
  - intros ->. split; reflexivity.
  - intros e ->. split; reflexivity.
Qed.

Lemma calculateWeight_untracked_witness :
  fst (calculateWeight slow_host "い" ["あ"; "い"; "う"] createAdaptiveSelector) = 1 /\
  fst (calculateWeight slow_host "あ" ["あ"; "い"; "う"]
         (mkWorld {[ "あ" := mkCharacterWeight 0 0 [] 0 0 0 ]} 1 0)) =
    clamp (accuracyWeight 0 0 * (1 + recentMissWeight 10000 [])
           * streakPenalty 0 * masteryCooldown 0 * freshnessBoost 10000 0
           * explorationFactor ["あ"; "い"; "う"] 0).
Proof.
  split.
  - destruct (calculateWeight_untracked slow_host "い" ["あ"; "い"; "う"]
                createAdaptiveSelector) as [Hnone _].
    apply Hnone. reflexivity.
  - destruct (calculateWeight_untracked slow_host "あ" ["あ"; "い"; "う"]
                (mkWorld {[ "あ" := mkCharacterWeight 0 0 [] 0 0 0 ]} 1 0))
      as [_ Hsome].
    apply (Hsome (mkCharacterWeight 0 0 [] 0 0 0)). reflexivity.
Defined.

(** The six factors of a record that was only marked as seen, looked at
    ten seconds later with the lowest jitter in a pool of at most 20. *)
Lemma finalWeight_marked_seen (allChars : list string) :
  (length allChars <= 20)%nat ->
  finalWeight (mkCharacterWeight 0 0 [] 0 0 0) 10000 allChars 0 = 1.
Proof.
  intros Hlen. unfold finalWeight. simpl.
  rewrite accuracyWeight_no_attempts.
  unfold recentMissWeight, streakPenalty, masteryCooldown, freshnessBoost,
    explorationFactor. simpl.
  destruct (Nat.ltb_spec 20 (length allChars)); [lia |].
  rewrite Z.sub_0_r.
  destruct (Rlt_dec (10000 / 1000) 5) as [Hlt|_]; lra.
Qed.

(** C5 (counterexample). A character that was only marked as seen is
    tracked, and ten seconds later, with jitter draw 0, its weight is
    exactly 1: a weight of 1 does not imply that no record exists. *)
Lemma calculateWeight_one_but_tracked :
  let w := snd (markCharacterSeen slow_host "あ" createAdaptiveSelector) in
  characterWeights w !! "あ" = Some (mkCharacterWeight 0 0 [] 0 0 0) /\
  fst (calculateWeight slow_host "あ" ["あ"; "い"; "う"] w) = 1 /\
  ~ (fst (calculateWeight slow_host "あ" ["あ"; "い"; "う"] w) = 1 <->
     characterWeights w !! "あ" = None).
Proof.
  intros w.
  assert (Hw : w = mkWorld (<[ "あ" := mkCharacterWeight 0 0 [] 0 0 0 ]> ∅) 1 0)
    by (subst w; rewrite markCharacterSeen_run; reflexivity).
  clearbody w. subst w. cbn [characterWeights].
  assert (Hlook : (<[ "あ" := mkCharacterWeight 0 0 [] 0 0 0 ]>
                     (∅ : gmap string CharacterWeight)) !! "あ"
                  = Some (mkCharacterWeight 0 0 [] 0 0 0))
    by apply lookup_insert_eq.
  assert (Hone : fst (calculateWeight slow_host "あ" ["あ"; "い"; "う"]
                   (mkWorld (<[ "あ" := mkCharacterWeight 0 0 [] 0 0 0 ]> ∅) 1 0))
                 = 1).
  { rewrite calculateWeight_run. cbn [characterWeights clock_reads rng_calls].
    rewrite Hlook. cbn [fst].
    change (Date_now slow_host 1) with 10000%Z.
    change (random_real slow_host 0 0 1) with 0.
    rewrite finalWeight_marked_seen by (simpl; lia).
    apply clamp_id. lra. }
  split; [exact Hlook |]. split; [exact Hone |].
  intros [Hto _]. specialize (Hto Hone). rewrite Hlook in Hto. discriminate.
Qed.

(** *** Selection: what it reads and what it leaves alone *)

Lemma calculateWeight_store (h : Host) (char : string) (allChars : list string)
    (w : World) :
  characterWeights (snd (calculateWeight h char allChars w)) = characterWeights w.
Proof.
  rewrite calculateWeight_run.
  destruct (characterWeights w !! char); reflexivity.
Qed.

(** A loop over a list leaves the map alone when its body does. *)
Lemma mapM_store {A B} (f : A -> M B) (l : list A) :
  (forall a w, characterWeights (snd (f a w)) = characterWeights w) ->
  forall w, characterWeights (snd (mapM f l w)) = characterWeights w.
Proof.
  intros Hf. induction l as [|a l IH]; intros w; simpl.
  - reflexivity.
  - unfold bind. specialize (Hf a w).
    destruct (f a w) as [b w1]. simpl in Hf.
    specialize (IH w1). destruct (mapM f l w1) as [bs w2]. simpl in *.
    congruence.
Qed.

(** The [map] of [selectWeightedCharacter] pairs each candidate, in order,
    with a weight. *)
Lemma mapM_weights_chars (h : Host) (chars l : list string) (w : World) :
  map fst (fst (mapM (fun char =>
                        do weight <- calculateWeight h char chars;
                        ret (char, weight)) l w)) = l.
Proof.
  revert w. induction l as [|a l IH]; intros w; simpl.
  - reflexivity.
  - unfold bind at 1 2.
    destruct (calculateWeight h a chars w) as [x w1]. unfold ret at 1.
    specialize (IH w1). unfold bind.
    destruct (mapM _ l w1) as [bs w2]. simpl in *. congruence.
Qed.

Lemma walk_In (weights : list (string * R)) (randomValue : R) (char : string) :
  walk weights randomValue = Some char -> In char (map fst weights).
Proof.
  revert randomValue. induction weights as [|[c x] rest IH]; intros r; simpl.
  - discriminate.
  - destruct (Rle_dec (r - x) 0).
    + intros [= ->]. left. reflexivity.
    + intros Hw. right. exact (IH _ Hw).
Qed.

Lemma index_In {A} (arr : list A) (i : Z) (a : A) :
  index arr i = Some a -> In a arr.
Proof.
  unfold index. destruct (i <? 0)%Z; [discriminate |]. apply nth_error_In.
Qed.

Lemma selectWeightedCharacter_store (h : Host) (chars : list string)
    (excludeChar : option string) (w : World) :
  characterWeights (snd (selectWeightedCharacter h chars excludeChar w))
    = characterWeights w.
Proof.
  unfold selectWeightedCharacter.
  destruct (length (availableChars chars excludeChar) =? 0)%nat; [reflexivity |].
  destruct (length (availableChars chars excludeChar) =? 1)%nat; [reflexivity |].
  unfold bind at 1.
  pose proof (mapM_store
                (fun char => do weight <- calculateWeight h char chars;
                             ret (char, weight))
                (availableChars chars excludeChar)) as Hmap.
  rewrite <- (Hmap ltac:(
    intros a w0; unfold bind, ret;
    pose proof (calculateWeight_store h a chars w0) as Hc;
    destruct (calculateWeight h a chars w0); exact Hc) w).
  destruct (mapM _ (availableChars chars excludeChar) w) as [weights w1].
  unfold bind, real_. simpl.
  destruct (walk weights _); reflexivity.
Qed.

(** C10. [selectWeightedCharacter] never changes the map of records: for
    every host (clock values and draws), pool and exclusion argument, the
    map after the call is the map before it, so every record read through
    [getCharacterWeight] is the same, field by field.  The read accessor
    leaves the whole world alone as well. *)
Theorem selectWeightedCharacter_frame (h : Host) (chars : list string)
    (excludeChar : option string) (w : World) :
  characterWeights (snd (selectWeightedCharacter h chars excludeChar w))
    = characterWeights w /\
  (forall char : string,
     fst (getCharacterWeight char
            (snd (selectWeightedCharacter h chars excludeChar w)))
     = fst (getCharacterWeight char w)) /\
  (forall char : string, snd (getCharacterWeight char w) = w).
Proof.
  split; [apply selectWeightedCharacter_store |]. split.
  - intros char. unfold getCharacterWeight, map_get. simpl.
    rewrite selectWeightedCharacter_store. reflexivity.
  - intros char. reflexivity.
Qed.

(** *** Selection: the two shortcuts *)

(** C7 (amended). For a non-empty pool and a non-empty exclusion string
    [x]: when removing [x] from the pool leaves nothing,
    [selectWeightedCharacter] returns the first element of the original
    pool (which is [x]); when removing [x] leaves exactly one item, it
    returns that item.  A one-element pool returns its element whatever
    the exclusion argument is (absent, empty or equal to the element).  In
    all three cases the world is returned as it was: no weight is computed,
    the clock is not read and nothing is drawn. *)
Theorem selectWeightedCharacter_shortcuts_on_pool (h : Host)
    (chars : list string) (x : string) (w : World) :
  chars <> [] ->
  x <> EmptyString ->
  (List.filter (fun c => negb (String.eqb c x)) chars = [] ->
     selectWeightedCharacter h chars (Some x) w = (hd_error chars, w) /\
     hd_error chars = Some x) /\
  (forall c : string,
     List.filter (fun c' => negb (String.eqb c' x)) chars = [c] ->
     selectWeightedCharacter h chars (Some x) w = (Some c, w)) /\
  (forall (c : string) (excludeChar : option string), chars = [c] ->
     selectWeightedCharacter h chars excludeChar w = (Some c, w)).
Proof.
  intros Hne Hx.
  assert (Hav : availableChars chars (Some x)
                = List.filter (fun c => negb (String.eqb c x)) chars).
  { unfold availableChars, truthy.
    destruct (String.eqb_spec x EmptyString); [contradiction | reflexivity]. }
  split; [| split].
  - intros Hf. unfold selectWeightedCharacter. rewrite Hav, Hf. simpl.
    destruct chars as [|c rest]; [contradiction |].
    split; [reflexivity |]. simpl in Hf. simpl.
    destruct (String.eqb_spec c x) as [->|Hcx]; simpl in Hf;
      [reflexivity | discriminate].
  - intros c Hf. unfold selectWeightedCharacter. rewrite Hav, Hf. reflexivity.
  - intros c excludeChar ->. unfold selectWeightedCharacter, availableChars.
    destruct excludeChar as [y|]; [| reflexivity].
    destruct (truthy (Some y)); [| reflexivity].
    simpl. destruct (negb (String.eqb c y)); reflexivity.
Qed.

Lemma selectWeightedCharacter_shortcuts_on_pool_witness :
  selectWeightedCharacter instant_host ["あ"; "あ"] (Some "あ") createAdaptiveSelector
    = (Some "あ", createAdaptiveSelector) /\
  selectWeightedCharacter instant_host ["あ"; "い"] (Some "あ") createAdaptiveSelector
    = (Some "い", createAdaptiveSelector) /\
  selectWeightedCharacter instant_host ["あ"] (Some "あ") createAdaptiveSelector
    = (Some "あ", createAdaptiveSelector).
Proof.
  split; [| split].
  - destruct (selectWeightedCharacter_shortcuts_on_pool instant_host ["あ"; "あ"]
                "あ" createAdaptiveSelector) as (Hempty & _ & _);
      [discriminate | discriminate |].
    destruct Hempty as [Hres _]; [reflexivity |]. exact Hres.
  - destruct (selectWeightedCharacter_shortcuts_on_pool instant_host ["あ"; "い"]
                "あ" createAdaptiveSelector) as (_ & Hone & _);
      [discriminate | discriminate |].
    apply Hone. reflexivity.
  - destruct (selectWeightedCharacter_shortcuts_on_pool instant_host ["あ"]
                "あ" createAdaptiveSelector) as (_ & _ & Hsingle);
      [discriminate | discriminate |].
    apply Hsingle. reflexivity.
Defined.

(** C7 (counterexample). In the pool [[""; "あ"]], removing the excluded
    [""] leaves exactly one item, "あ"; but the empty string is falsy, so
    nothing is filtered, both characters are weighed (two clock reads), a
    value is drawn, and the draw 0 selects [""], not the remaining
    item. *)
Lemma selectWeightedCharacter_empty_exclusion_no_shortcut :
  List.filter (fun c => negb (String.eqb c EmptyString)) [EmptyString; "あ"]
    = ["あ"] /\
  selectWeightedCharacter instant_host [EmptyString; "あ"] (Some EmptyString)
    createAdaptiveSelector = (Some EmptyString, mkWorld ∅ 2 1).
Proof.
  split; [reflexivity |].
  unfold selectWeightedCharacter. cbn [availableChars truthy String.eqb negb
    length Nat.eqb mapM].
  unfold bind at 1 2 3. rewrite calculateWeight_run.
  cbn [createAdaptiveSelector characterWeights clock_reads rng_calls].
  rewrite lookup_empty. unfold ret at 1.
  unfold bind at 1 2 3. rewrite calculateWeight_run.
  cbn [characterWeights clock_reads rng_calls].
  rewrite lookup_empty. unfold ret at 1 2 3.
  unfold bind, real_, ret.
  cbn [instant_host lowest_draw_host random_real rng_calls clock_reads
    characterWeights walk].
  destruct (Rle_dec (0 - 1) 0) as [_|Hgt]; [reflexivity | exfalso; lra].
Qed.

(** *** Selection: the exclusion *)

Lemma availableChars_excludes (chars : list string) (x c : string) :
  x <> EmptyString -> In c (availableChars chars (Some x)) -> In c chars /\ c <> x.
Proof.
  intros Hx. unfold availableChars, truthy.
  destruct (String.eqb_spec x EmptyString) as [->|_]; [contradiction |].
  simpl. rewrite filter_In. intros [Hin Hneq]. split; [exact Hin |].
  destruct (String.eqb_spec c x); [discriminate | assumption].
Qed.

(** Whatever [selectWeightedCharacter] returns comes from the candidates,
    except in the first shortcut, which indexes the original pool. *)
Lemma selectWeightedCharacter_In (h : Host) (chars : list string)
    (excludeChar : option string) (w : World) (c : string) :
  availableChars chars excludeChar <> [] ->
  fst (selectWeightedCharacter h chars excludeChar w) = Some c ->
  In c (availableChars chars excludeChar).
Proof.
  intros Hav. unfold selectWeightedCharacter.
  destruct (availableChars chars excludeChar) as [|a l] eqn:Eav; [contradiction |].
  cbn [length Nat.eqb].
  destruct (length l =? 0)%nat.
  - simpl. intros [= ->]. left. reflexivity.
  - unfold bind at 1.
    pose proof (mapM_weights_chars h chars (a :: l) w) as Hchars.
    destruct (mapM _ (a :: l) w) as [weights w1]. cbn [fst] in Hchars.
    unfold bind at 1, real_ at 1.
    destruct (walk weights _) as [c'|] eqn:Ewalk.
    + unfold ret. cbn [fst]. intros [= ->].
      apply walk_In in Ewalk. rewrite Hchars in Ewalk. exact Ewalk.
    + unfold bind, integer_, ret. cbn [fst]. apply index_In.
Qed.

(** C4 (amended). For every pool that contains [x] and some item other
    than [x], and every non-empty string [x], [selectWeightedCharacter]
    called with exclusion [x] never returns [x], whatever the records, the
    clock values and the draws are. *)
Theorem selectWeightedCharacter_excludes (h : Host) (chars : list string)
    (x : string) (w : World) :
  x <> EmptyString ->
  In x chars ->
  (exists y : string, In y chars /\ y <> x) ->
  fst (selectWeightedCharacter h chars (Some x) w) <> Some x.
Proof.
  intros Hx _ [y [Hy Hyx]] Hres.
  assert (Hav : availableChars chars (Some x) <> []).
  { unfold availableChars, truthy.
    destruct (String.eqb_spec x EmptyString) as [->|_]; [contradiction |].
    simpl. intros Hnil.
    assert (Hin : In y (List.filter (fun c => negb (String.eqb c x)) chars)).
    { apply filter_In. split; [exact Hy |].
      destruct (String.eqb_spec y x); [contradiction | reflexivity]. }
    rewrite Hnil in Hin. exact Hin. }
  apply (selectWeightedCharacter_In h chars (Some x) w x Hav) in Hres.
  apply (availableChars_excludes chars x x Hx) in Hres.
  destruct Hres as [_ Hneq]. apply Hneq. reflexivity.
Qed.

Lemma selectWeightedCharacter_excludes_witness :
  fst (selectWeightedCharacter instant_host ["あ"; "い"; "う"] (Some "あ")
         createAdaptiveSelector) <> Some "あ".
Proof.
  apply (selectWeightedCharacter_excludes instant_host ["あ"; "い"; "う"] "あ"
           createAdaptiveSelector).
  - discriminate.
  - simpl. left. reflexivity.
  - exists "い". split; [simpl; right; left; reflexivity | discriminate].
Defined.

(** C4 (counterexample). The exclusion argument is tested for truthiness,
    and the empty string is falsy: in the pool [[""; "あ"]], which has two
    distinct items one of which is [""], excluding [""] filters nothing,
    both untracked candidates weigh 1, and the draw 0 from [[0, 2)] selects
    the first candidate, which is the excluded [""]. *)
Lemma selectWeightedCharacter_returns_excluded_empty_string :
  In EmptyString [EmptyString; "あ"] /\
  (exists y : string, In y [EmptyString; "あ"] /\ y <> EmptyString) /\
  fst (selectWeightedCharacter instant_host [EmptyString; "あ"] (Some EmptyString)
         createAdaptiveSelector) = Some EmptyString.
Proof.
  split; [left; reflexivity |].
  split; [exists "あ"; split; [right; left; reflexivity | discriminate] |].
  unfold selectWeightedCharacter. cbn [availableChars truthy String.eqb negb
    length Nat.eqb mapM].
  unfold bind at 1 2 3. rewrite calculateWeight_run.
  cbn [createAdaptiveSelector characterWeights clock_reads rng_calls].
  rewrite lookup_empty. unfold ret at 1.
  unfold bind at 1 2 3. rewrite calculateWeight_run.
  cbn [characterWeights clock_reads rng_calls].
  rewrite lookup_empty. unfold ret at 1 2 3.
  unfold bind, real_, ret.
  cbn [instant_host lowest_draw_host random_real rng_calls walk].
  destruct (Rle_dec (0 - 1) 0) as [_|Hgt]; [reflexivity | exfalso; lra].
Qed.

(** *** The two runs are never both nonzero *)

Lemma recordAnswer_spec_exclusive (now : Z) (isCorrect : bool)
    (existing : option CharacterWeight) :
  runs_exclusive (recordAnswer_spec now isCorrect existing).
Proof.
  unfold runs_exclusive.
  destruct existing as [e|], isCorrect; simpl; auto.
Qed.

Lemma run_call_exclusive (h : Host) (c : Call) (w : World) :
  map_Forall (fun _ e => runs_exclusive e) (characterWeights w) ->
  map_Forall (fun _ e => runs_exclusive e) (characterWeights (run_call h c w)).
Proof.
  intros Hinv. destruct c as [chars x|char isCorrect|char| |char]; simpl.
  - rewrite selectWeightedCharacter_store. exact Hinv.
  - rewrite updateCharacterWeight_run. simpl.
    apply map_Forall_insert_2; [apply recordAnswer_spec_exclusive | exact Hinv].
  - rewrite markCharacterSeen_run. simpl.
    apply map_Forall_insert_2; [| exact Hinv].
    destruct (characterWeights w !! char) as [e|] eqn:Elook.
    + exact (Hinv char e Elook).
    + left. reflexivity.
  - apply map_Forall_empty.
  - exact Hinv.
Qed.

Lemma run_calls_exclusive (h : Host) (cs : list Call) (w : World) :
  map_Forall (fun _ e => runs_exclusive e) (characterWeights w) ->
  map_Forall (fun _ e => runs_exclusive e) (characterWeights (run_calls h cs w)).
Proof.
  revert w. induction cs as [|c cs IH]; intros w Hinv; simpl.
  - exact Hinv.
  - apply IH. apply run_call_exclusive. exact Hinv.
Qed.

(** C8. In every world reached from a fresh selector by any sequence of
    calls (answers, mark-seen, reset, and also selections and reads), under
    any host, every record has [consecutiveCorrect = 0] or
    [consecutiveWrong = 0]. *)
Theorem consecutive_runs_exclusive (h : Host) (calls : list Call)
    (char : string) (e : CharacterWeight) :
  characterWeights (run_calls h calls createAdaptiveSelector) !! char = Some e ->
  consecutiveCorrect e = 0%nat \/ consecutiveWrong e = 0%nat.
Proof.
  intros Hlook.
  apply (run_calls_exclusive h calls createAdaptiveSelector
           ltac:(apply map_Forall_empty) char e Hlook).
Qed.

Lemma consecutive_runs_exclusive_witness :
  consecutiveCorrect (mkCharacterWeight 1 1 [0%Z] 0 1 0) = 0%nat \/
  consecutiveWrong (mkCharacterWeight 1 1 [0%Z] 0 1 0) = 0%nat.
Proof.
  apply (consecutive_runs_exclusive instant_host
           [CallUpdate "あ" false; CallUpdate "あ" true; CallMarkSeen "あ"]
           "あ").
  vm_compute. reflexivity.
Defined.

(** *** Three misses in a row *)

(** Factor 2 only ever adds to its accumulator, and a miss younger than 30
    seconds adds the full 0.5. *)
Lemma missStep_ge (now : Z) (acc : R) (t : Z) : acc <= missStep now acc t.
Proof.
  unfold missStep.
  destruct (Rlt_dec (IZR (now - t) / 1000) 30); [lra |].
  destruct (Rlt_dec (IZR (now - t) / 1000) 120); lra.
Qed.

Lemma fold_missStep_ge (now : Z) (misses : list Z) (acc : R) :
  acc <= fold_left (missStep now) misses acc.
Proof.
  revert acc. induction misses as [|t l IH]; intros acc; simpl.
  - lra.
  - pose proof (missStep_ge now acc t). specialize (IH (missStep now acc t)). lra.
Qed.

Lemma fold_missStep_young (now : Z) (misses : list Z) (acc : R) (t : Z) :
  In t misses -> IZR (now - t) / 1000 < 30 ->
  acc + 0.5 <= fold_left (missStep now) misses acc.
Proof.
  revert acc. induction misses as [|t' l IH]; intros acc Hin Hyoung; simpl.
  - destruct Hin.
  - destruct Hin as [->|Hin].
    + assert (Hstep : missStep now acc t = acc + 0.5).
      { unfold missStep.
        destruct (Rlt_dec (IZR (now - t) / 1000) 30); [reflexivity | contradiction]. }
      pose proof (fold_missStep_ge now l (missStep now acc t)) as Hge.
      rewrite Hstep in Hge at 1. exact Hge.
    + pose proof (missStep_ge now acc t').
      specialize (IH (missStep now acc t') Hin Hyoung). lra.
Qed.

Lemma sqrt_3_lower : 1.7 <= sqrt (INR 3).
Proof.
  replace 1.7 with (sqrt (1.7 * 1.7)) by (apply sqrt_square; lra).
  apply sqrt_le_1_alt. simpl. lra.
Qed.

Lemma clamp_gt_1 (x : R) : 1 < x -> 1 < clamp x.
Proof.
  intros Hx. unfold clamp.
  apply Rlt_le_trans with (Rmin 5 x); [| apply Rmax_r].
  apply Rmin_glb_lt; lra.
Qed.

Lemma three_misses_world (h : Host) :
  exists misses : list Z,
    three_misses h =
      mkWorld (<[ "あ" := mkCharacterWeight 0 3 misses (Date_now h 2) 0 3 ]>
                 (<[ "あ" := recordAnswer_spec (Date_now h 1) false
                              (Some (recordAnswer_spec (Date_now h 0) false None)) ]>
                    (<[ "あ" := recordAnswer_spec (Date_now h 0) false None ]> ∅)))
              3 0 /\
    In (Date_now h 2) misses.
Proof.
  unfold three_misses, run_calls. cbn [fold_left run_call].
  rewrite !updateCharacterWeight_run.
  cbn [snd characterWeights clock_reads rng_calls createAdaptiveSelector].
  rewrite lookup_empty.
  rewrite lookup_insert_eq. rewrite lookup_insert_eq.
  eexists. split; [reflexivity |].
  apply pruned_In. split; [| lia].
  apply in_or_app. right. left. reflexivity.
Qed.

(** The six-factor product of a record with no correct answer, three
    wrong ones in a row and the latest miss in its list, in a pool of at
    most 20, exceeds 1 for every clock value and every jitter draw that is
    not negative. *)
Lemma finalWeight_three_misses (misses : list Z) (seen now : Z)
    (allChars : list string) (u : R) :
  In seen misses -> (length allChars <= 20)%nat -> 0 <= u ->
  1 < finalWeight (mkCharacterWeight 0 3 misses seen 0 3) now allChars u.
Proof.
  intros Hin Hlen Hu. unfold finalWeight. cbn [correct wrong recentMisses
    lastSeen consecutiveCorrect consecutiveWrong].
  assert (HA : 2.375 <= accuracyWeight 0 3).
  { rewrite accuracyWeight_of_accuracy. unfold accuracy. simpl.
    replace (6 * (0 / (1 + 1 + 1)) - 3) with (- 3) by lra.
    pose proof exp_neg_3_upper. pose proof (exp_pos (- 3)).
    apply (Rmult_le_reg_r (1 + exp (- 3))); [lra |].
    unfold Rdiv. rewrite (Rmult_assoc 2.5), Rinv_l by lra. lra. }
  assert (HS : 1.34 <= streakPenalty 3).
  { unfold streakPenalty. destruct (Nat.ltb_spec 0 3); [| lia].
    pose proof sqrt_3_lower. lra. }
  assert (HM : masteryCooldown 0 = 1) by (rewrite masteryCooldown_closed; reflexivity).
  assert (HE : 0.8 <= explorationFactor allChars u).
  { unfold explorationFactor.
    destruct (Nat.ltb_spec 20 (length allChars)); lra. }
  rewrite HM.
  pose proof (fold_missStep_ge now misses 0) as Hrm.
  fold (recentMissWeight now misses) in Hrm.
  assert (HF : 0.45 <= (1 + recentMissWeight now misses) * freshnessBoost now seen).
  { unfold freshnessBoost.
    destruct (Rlt_dec (IZR (now - seen) / 1000) 5) as [Hfresh|Hstale].
    - pose proof (fold_missStep_young now misses 0 seen Hin ltac:(lra)) as Hy.
      fold (recentMissWeight now misses) in Hy. lra.
    - lra. }
  set (A := accuracyWeight 0 3) in *.
  set (S3 := streakPenalty 3) in *.
  set (RF := (1 + recentMissWeight now misses) * freshnessBoost now seen) in *.
  set (E := explorationFactor allChars u) in *.
  replace (A * (1 + recentMissWeight now misses) * S3 * 1
           * freshnessBoost now seen * E)
    with ((A * S3) * (RF * E)) by (unfold RF; ring).
  assert (H1 : 2.375 * 1.34 <= A * S3) by (apply Rmult_le_compat; lra).
  assert (H2 : 0.45 * 0.8 <= RF * E) by (apply Rmult_le_compat; lra).
  assert (H3 : (2.375 * 1.34) * (0.45 * 0.8) <= (A * S3) * (RF * E))
    by (apply Rmult_le_compat; lra).
  lra.
Qed.

(** C6. On a fresh selector, after three wrong answers for "あ" in a row
    (at any clock values, so in particular at the same instant), the weight
    of "あ" in the pool "あ", "い", "う" is strictly greater than 1, which
    is exactly the weight of the untracked "い", for every jitter draw
    that [random.real(0, 1)] can produce (a draw that is not negative). *)
Theorem three_misses_outweigh_unseen (h : Host) :
  (forall k : nat, 0 <= random_real h k 0 1) ->
  let first := calculateWeight h "あ" pool_a_i_u (three_misses h) in
  let second := calculateWeight h "い" pool_a_i_u (snd first) in
  fst second = 1 /\ 1 < fst first /\ fst second < fst first.
Proof.
  intros Hdraw first second.
  destruct (three_misses_world h) as [misses [Hworld Hin]].
  assert (Hfirst : 1 < fst first).
  { subst first. rewrite calculateWeight_run, Hworld.
    cbn [characterWeights clock_reads rng_calls].
    rewrite lookup_insert_eq. cbn [fst].
    apply clamp_gt_1. apply finalWeight_three_misses;
      [exact Hin | simpl; lia | apply Hdraw]. }
  assert (Hsecond : fst second = 1).
  { subst second. rewrite calculateWeight_run.
    subst first. rewrite calculateWeight_store, Hworld.
    cbn [characterWeights].
    rewrite !lookup_insert_ne by discriminate. rewrite lookup_empty.
    reflexivity. }
  split; [exact Hsecond |]. split; [exact Hfirst | lra].
Qed.

Lemma three_misses_outweigh_unseen_witness :
  fst (calculateWeight instant_host "い" pool_a_i_u
         (snd (calculateWeight instant_host "あ" pool_a_i_u
                 (three_misses instant_host)))) = 1 /\
  1 < fst (calculateWeight instant_host "あ" pool_a_i_u (three_misses instant_host)).
Proof.
  destruct (three_misses_outweigh_unseen instant_host) as (Hi & Ha & _).
  - intros k. simpl. lra.
  - split; [exact Hi | exact Ha].
Defined.

(** ** Further properties of the factors *)



Lemma accuracy_range (c w : nat) : 0 <= accuracy c w <= 1.
Proof.
  unfold accuracy. destruct (Nat.ltb_spec 0 (c + w)) as [Hpos|Hzero]; [| lra].
  assert (Ht : 0 < INR (c + w)) by (apply lt_0_INR; exact Hpos).
  pose proof (pos_INR c) as Hc.
  assert (Hle : INR c <= INR (c + w)) by (apply le_INR; lia).
  split.
  - apply Rmult_le_pos; [exact Hc | left; apply Rinv_0_lt_compat; exact Ht].
  - apply (Rmult_le_reg_r (INR (c + w))); [exact Ht |].
    unfold Rdiv. rewrite Rmult_assoc, Rinv_l by lra. lra.
Qed.

Lemma exp_le_mono (x y : R) : x <= y -> exp x <= exp y.
Proof.
  intros [Hlt | ->]; [left; apply exp_increasing; exact Hlt | lra].
Qed.

Lemma exp_3_upper : exp 3 <= 27.
Proof.
  pose proof exp_le_3 as H1. pose proof (exp_pos 1) as Hp.
  replace 3 with (1 + (1 + 1)) by lra. rewrite !exp_plus.
  assert (H2 : exp 1 * exp 1 <= 3 * 3) by (apply Rmult_le_compat; lra).
  assert (H3 : exp 1 * (exp 1 * exp 1) <= 3 * (3 * 3)).
  { apply Rmult_le_compat; try lra. apply Rmult_le_pos; lra. }
  lra.
Qed.

(** X1. [sigmoid] maps every argument, steepness and midpoint into the
    closed interval from 0 to 1, and the accuracy factor of every pair of
    counters lies between 0.089 and 2.5 (it is at least
    [2.5 / (1 + exp 3)] and below 2.5). *)
Theorem sigmoid_range (x steepness midpoint : R) (c w : nat) :
  0 <= sigmoid x steepness midpoint <= 1 /\ 0.089 <= accuracyWeight c w < 2.5.
Proof.
  assert (Hsig : forall a b m : R, 0 < sigmoid a b m < 1).
  { intros a b m. unfold sigmoid.
    pose proof (exp_pos (- b * (a - m))) as Hpos.
    assert (Hinv : 0 < / (1 + exp (- b * (a - m))))
      by (apply Rinv_0_lt_compat; lra).
    assert (Hlt : / (1 + exp (- b * (a - m))) < 1).
    { rewrite <- Rinv_1 at 2. apply Rinv_lt_contravar; lra. }
    lra. }
  split; [pose proof (Hsig x steepness midpoint); lra |]. split.
  - rewrite accuracyWeight_of_accuracy.
    pose proof (accuracy_range c w) as Ha.
    pose proof (exp_pos (6 * accuracy c w - 3)) as Hpos.
    pose proof (exp_le_mono (6 * accuracy c w - 3) 3 ltac:(lra)) as Hle.
    pose proof exp_3_upper as H27.
    apply (Rmult_le_reg_r (1 + exp (6 * accuracy c w - 3))); [lra |].
    unfold Rdiv. rewrite Rmult_assoc, Rinv_l by lra. lra.
  - unfold accuracyWeight. pose proof (Hsig (0.5 - accuracy c w) 6 0). lra.
Qed.

Lemma accuracyWeight_le (c1 w1 c2 w2 : nat) :
  accuracy c1 w1 <= accuracy c2 w2 -> accuracyWeight c2 w2 <= accuracyWeight c1 w1.
Proof.
  intros Hacc. rewrite !accuracyWeight_of_accuracy.
  pose proof (exp_pos (6 * accuracy c1 w1 - 3)) as Hp1.
  pose proof (exp_le_mono (6 * accuracy c1 w1 - 3) (6 * accuracy c2 w2 - 3)
                ltac:(lra)) as Hexp.
  unfold Rdiv. apply Rmult_le_compat_l; [lra |].
  apply Rinv_le_contravar; lra.
Qed.

(** X2. The accuracy factor responds to accuracy in the opposite
    direction: a record with lower (or equal) accuracy never has the
    smaller factor, and a strictly lower accuracy gives a strictly larger
    factor. *)
Theorem accuracyWeight_antitone (c1 w1 c2 w2 : nat) :
  (accuracy c1 w1 <= accuracy c2 w2 ->
     accuracyWeight c2 w2 <= accuracyWeight c1 w1) /\
  (accuracy c1 w1 < accuracy c2 w2 ->
     accuracyWeight c2 w2 < accuracyWeight c1 w1).
Proof.
  split; [apply accuracyWeight_le |].
  intros Hacc. rewrite !accuracyWeight_of_accuracy.
  pose proof (exp_pos (6 * accuracy c1 w1 - 3)) as Hp1.
  pose proof (exp_increasing (6 * accuracy c1 w1 - 3) (6 * accuracy c2 w2 - 3)
                ltac:(lra)) as Hexp.
  unfold Rdiv. apply Rmult_lt_compat_l; [lra |].
  apply Rinv_lt_contravar; [| lra].
  apply Rmult_lt_0_compat; lra.
Qed.

Lemma accuracyWeight_antitone_witness :
  accuracyWeight 3 1 <= accuracyWeight 1 1 /\
  accuracyWeight 3 1 < accuracyWeight 1 3.
Proof.
  split.
  - apply (accuracyWeight_antitone 1 1 3 1). unfold accuracy. simpl. lra.
  - apply (accuracyWeight_antitone 1 3 3 1). unfold accuracy. simpl. lra.
Defined.

Lemma accuracy_step (c w : nat) :
  accuracy c (S w) <= accuracy c w <= accuracy (S c) w.
Proof.
  unfold accuracy.
  replace (0 <? c + S w)%nat with true by (symmetry; apply Nat.ltb_lt; lia).
  replace (0 <? S c + w)%nat with true by (symmetry; apply Nat.ltb_lt; lia).
  replace (c + S w)%nat with (S (c + w)) by lia.
  replace (S c + w)%nat with (S (c + w)) by lia.
  rewrite !S_INR. pose proof (pos_INR c) as Hc. pose proof (pos_INR w) as Hw.
  pose proof (pos_INR (c + w)) as Ht.
  assert (Hsum : INR (c + w) = INR c + INR w) by apply plus_INR.
  assert (Hinv1 : 0 < / (INR (c + w) + 1)) by (apply Rinv_0_lt_compat; lra).
  assert (Hdown : INR c / (INR (c + w) + 1) <= 1).
  { apply (Rmult_le_reg_r (INR (c + w) + 1)); [lra |].
    unfold Rdiv. rewrite Rmult_assoc, Rinv_l by lra. lra. }
  assert (Hup : 0 <= (INR c + 1) / (INR (c + w) + 1)).
  { apply Rmult_le_pos; lra. }
  destruct (Nat.ltb_spec 0 (c + w)) as [Hpos|Hzero].
  - assert (Htp : 0 < INR (c + w)) by (apply lt_0_INR; exact Hpos).
    split.
    + apply (Rmult_le_reg_r ((INR (c + w) + 1) * INR (c + w)));
        [apply Rmult_lt_0_compat; lra |].
      unfold Rdiv.
      replace (INR c * / (INR (c + w) + 1) * ((INR (c + w) + 1) * INR (c + w)))
        with (INR c * INR (c + w) * ((INR (c + w) + 1) * / (INR (c + w) + 1)))
        by ring.
      replace (INR c * / INR (c + w) * ((INR (c + w) + 1) * INR (c + w)))
        with (INR c * (INR (c + w) + 1) * (INR (c + w) * / INR (c + w)))
        by ring.
      rewrite !Rinv_r by lra. nra.
    + apply (Rmult_le_reg_r ((INR (c + w) + 1) * INR (c + w)));
        [apply Rmult_lt_0_compat; lra |].
      unfold Rdiv.
      replace ((INR c + 1) * / (INR (c + w) + 1) * ((INR (c + w) + 1) * INR (c + w)))
        with ((INR c + 1) * INR (c + w) * ((INR (c + w) + 1) * / (INR (c + w) + 1)))
        by ring.
      replace (INR c * / INR (c + w) * ((INR (c + w) + 1) * INR (c + w)))
        with (INR c * (INR (c + w) + 1) * (INR (c + w) * / INR (c + w)))
        by ring.
      rewrite !Rinv_r by lra. nra.
  - assert (Hc0 : c = 0%nat) by lia. assert (Hw0 : w = 0%nat) by lia.
    subst c w. simpl. split; lra.
Qed.

(** X3. One more correct answer never raises the accuracy factor of a
    record and one more wrong answer never lowers it, whatever the counters
    were (including a record with no attempt, whose accuracy counts as
    0.5). *)
Theorem accuracyWeight_next_answer (c w : nat) :
  accuracyWeight (S c) w <= accuracyWeight c w <= accuracyWeight c (S w).
Proof.
  destruct (accuracy_step c w) as [Hwrong Hcorrect].
  split; apply accuracyWeight_le; assumption.
Qed.

Lemma streakPenalty_ge_1 (n : nat) : 1 <= streakPenalty n.
Proof.
  unfold streakPenalty. destruct (0 <? n)%nat; [| lra].
  pose proof (sqrt_pos (INR n)). lra.
Qed.

(** X4. The streak factor is 1 without a wrong run, never decreases as
    the wrong run grows, and is 1.2, 1.4 and 1.6 at runs of 1, 4 and 9. *)
Theorem streakPenalty_monotone :
  streakPenalty 0 = 1 /\
  (forall n m : nat, (n <= m)%nat -> streakPenalty n <= streakPenalty m) /\
  streakPenalty 1 = 1.2 /\ streakPenalty 4 = 1.4 /\ streakPenalty 9 = 1.6.
Proof.
  split; [reflexivity |]. split.
  - intros n m Hnm. destruct n as [|n].
    + change (streakPenalty 0) with 1. apply streakPenalty_ge_1.
    + unfold streakPenalty.
      replace (0 <? S n)%nat with true by (symmetry; apply Nat.ltb_lt; lia).
      replace (0 <? m)%nat with true by (symmetry; apply Nat.ltb_lt; lia).
      assert (Hs : sqrt (INR (S n)) <= sqrt (INR m))
        by (apply sqrt_le_1_alt; apply le_INR; exact Hnm).
      lra.
  - unfold streakPenalty.
    replace (0 <? 1)%nat with true by reflexivity.
    replace (0 <? 4)%nat with true by reflexivity.
    replace (0 <? 9)%nat with true by reflexivity.
    replace (INR 1) with 1 by (simpl; lra).
    replace (INR 4) with (2 * 2) by (simpl; lra).
    replace (INR 9) with (3 * 3) by (simpl; lra).
    rewrite sqrt_1, !sqrt_square by lra. repeat split; lra.
Qed.

Lemma streakPenalty_monotone_witness : streakPenalty 2 <= streakPenalty 5.
Proof.
  destruct streakPenalty_monotone as (_ & Hmono & _).
  apply (Hmono 2%nat 5%nat). lia.
Defined.

(** Seconds against milliseconds: [ageSeconds < k] is [age < 1000 * k]. *)
Lemma seconds_lt (d k : Z) : IZR d / 1000 < IZR k <-> (d < k * 1000)%Z.
Proof.
  split.
  - intros H. apply lt_IZR. rewrite mult_IZR. lra.
  - intros H. apply IZR_lt in H. rewrite mult_IZR in H. lra.
Qed.







Lemma freshnessBoost_ms (now seen : Z) :
  freshnessBoost now seen = if (now - seen <? 5000)%Z then 0.3 else 1.
Proof.
  pose proof (seconds_lt (now - seen) 5) as H5.
  change (5 * 1000)%Z with 5000%Z in H5.
  unfold freshnessBoost.
  destruct (Rlt_dec (IZR (now - seen) / 1000) 5) as [Hf|Hf],
           (Z.ltb_spec (now - seen) 5000) as [Hz|Hz]; try reflexivity.
  - apply H5 in Hf. lia.
  - apply H5 in Hz. contradiction.
Qed.

(** X7. For a jitter draw between 0 and 1, the exploration factor lies
    between 0.9 and 1 when the pool has more than 20 characters and
    between 0.8 and 1 otherwise; a pool of exactly 20 is still a small
    pool. *)
Theorem explorationFactor_range (allChars : list string) (u : R) :
  0 <= u <= 1 ->
  ((20 < length allChars)%nat -> 0.9 <= explorationFactor allChars u <= 1) /\
  ((length allChars <= 20)%nat -> 0.8 <= explorationFactor allChars u <= 1).
Proof.
  intros Hu. unfold explorationFactor.
  destruct (Nat.ltb_spec 20 (length allChars)); split; intros ?; try lia; lra.
Qed.

Lemma explorationFactor_range_witness :
  0.9 <= explorationFactor (repeat "あ" 21) 0.5 <= 1 /\
  0.8 <= explorationFactor (repeat "あ" 20) 0.5 <= 1.
Proof.
  split.
  - apply (explorationFactor_range (repeat "あ" 21) 0.5); [lra | simpl; lia].
  - apply (explorationFactor_range (repeat "あ" 20) 0.5); [lra | simpl; lia].
Defined.

(** X8. Showing a character suppresses its immediate repeat: when an
    untracked character is marked as seen and its weight is computed while
    the clock has advanced by less than 5 seconds, the weight is between
    0.3 and 0.375 for a jitter draw between 0 and 1, below the weight 1 of
    a character that was never shown. *)
Theorem markCharacterSeen_suppresses (h : Host) (char : string)
    (allChars : list string) (w : World) :
  characterWeights w !! char = None ->
  (Date_now h (S (clock_reads w)) - Date_now h (clock_reads w) < 5000)%Z ->
  0 <= random_real h (rng_calls w) 0 1 <= 1 ->
  0.3 <= fst (calculateWeight h char allChars
                (snd (markCharacterSeen h char w))) <= 0.375.
Proof.
  intros Hnone Hclock Hu.
  rewrite markCharacterSeen_run, Hnone. cbn [snd].
  rewrite calculateWeight_run. cbn [characterWeights clock_reads rng_calls].
  rewrite lookup_insert_eq. cbn [fst].
  unfold finalWeight. cbn [correct wrong recentMisses lastSeen
    consecutiveCorrect consecutiveWrong].
  rewrite accuracyWeight_no_attempts, freshnessBoost_ms.
  destruct (Z.ltb_spec (Date_now h (S (clock_reads w)) - Date_now h (clock_reads w))
              5000) as [_|Hge]; [| lia].
  change (recentMissWeight (Date_now h (S (clock_reads w))) []) with 0.
  change (streakPenalty 0) with 1.
  replace (masteryCooldown 0) with 1 by (rewrite masteryCooldown_closed; reflexivity).
  set (u := random_real h (rng_calls w) 0 1) in *.
  assert (HE : 0.8 <= explorationFactor allChars u <= 1).
  { unfold explorationFactor. destruct (20 <? length allChars)%nat; lra. }
  set (E := explorationFactor allChars u) in *.
  rewrite clamp_id; lra.
Qed.

Lemma markCharacterSeen_suppresses_witness :
  0.3 <= fst (calculateWeight instant_host "あ" pool_a_i_u
                (snd (markCharacterSeen instant_host "あ" createAdaptiveSelector)))
      <= 0.375.
Proof.
  apply (markCharacterSeen_suppresses instant_host "あ" pool_a_i_u
           createAdaptiveSelector).
  - reflexivity.
  - simpl. lia.
  - simpl. lra.
Defined.

(** *** Runs of answers *)

Lemma run_calls_app (h : Host) (cs1 cs2 : list Call) (w : World) :
  run_calls h (cs1 ++ cs2) w = run_calls h cs2 (run_calls h cs1 w).
Proof. unfold run_calls. apply fold_left_app. Qed.

Lemma answers_S (char : string) (isCorrect : bool) (n : nat) :
  answers char isCorrect (S n)
    = answers char isCorrect n ++ [CallUpdate char isCorrect].
Proof. unfold answers. apply repeat_cons. Qed.

Lemma run_answers (h : Host) (char : string) (isCorrect : bool)
    (n : nat) (w : World) :
  characterWeights w !! char = None ->
  let w' := run_calls h (answers char isCorrect (S n)) w in
  exists misses : list Z,
    characterWeights w' !! char =
      Some (if isCorrect
            then mkCharacterWeight (S n) 0 misses
                   (Date_now h (clock_reads w + n)) (S n) 0
            else mkCharacterWeight 0 (S n) misses
                   (Date_now h (clock_reads w + n)) 0 (S n)) /\
    (if isCorrect then misses = []
     else exists older, misses = older ++ [Date_now h (clock_reads w + n)]) /\
    clock_reads w' = (clock_reads w + S n)%nat /\
    rng_calls w' = rng_calls w.
Proof.
  intros Hnone. induction n as [|n IH].
  - cbv zeta. unfold answers, run_calls. cbn [repeat fold_left run_call].
    rewrite updateCharacterWeight_run, Hnone. cbn [snd characterWeights
      clock_reads rng_calls]. rewrite lookup_insert_eq, Nat.add_0_r.
    destruct isCorrect; cbn [recordAnswer_spec].
    + exists []. repeat split; try reflexivity; lia.
    + exists [Date_now h (clock_reads w)].
      split; [reflexivity |]. split; [exists []; reflexivity |].
      split; [lia | reflexivity].
  - cbv zeta in *. rewrite answers_S, run_calls_app.
    destruct IH as (misses & Hlook & Hmisses & Hclock & Hrng).
    set (w1 := run_calls h (answers char isCorrect (S n)) w) in *.
    assert (Hlast : run_calls h [CallUpdate char isCorrect] w1 =
              mkWorld
                (<[char := recordAnswer_spec (Date_now h (clock_reads w1)) isCorrect
                             (characterWeights w1 !! char)]> (characterWeights w1))
                (S (clock_reads w1)) (rng_calls w1)).
    { unfold run_calls. cbn [fold_left run_call].
      rewrite updateCharacterWeight_run. reflexivity. }
    rewrite Hlast. cbn [characterWeights clock_reads rng_calls].
    rewrite lookup_insert_eq, Hlook, Hclock.
    replace (clock_reads w + S (S n))%nat with (S (clock_reads w + S n)) by lia.
    replace (clock_reads w + S n)%nat with (S (clock_reads w + n)) by lia.
    destruct isCorrect; cbn [recordAnswer_spec correct wrong recentMisses
      lastSeen consecutiveCorrect consecutiveWrong].
    + exists misses. subst misses.
      replace (S n + 1)%nat with (S (S n)) by lia.
      repeat split; try reflexivity. exact Hrng.
    + set (now := Date_now h (S (clock_reads w + n))).
      exists (pruned now misses ++ [now]).
      replace (S n + 1)%nat with (S (S n)) by lia.
      split.
      * unfold pruned. rewrite List.filter_app. cbn [List.filter].
        replace (now - now <? 120000)%Z with true
          by (symmetry; apply Z.ltb_lt; lia).
        reflexivity.
      * split; [eexists; reflexivity |]. split; [reflexivity | exact Hrng].
Qed.

(** X9. After [n + 1] answers with the same outcome for a character that
    had no record, the record counts [n + 1] on the side of the outcome,
    both as lifetime counter and as run, and 0 on the other side;
    [lastSeen] is the clock value of the last answer; after correct
    answers the miss list is empty, after wrong ones it ends with the time
    of the last answer.  The clock was read once per answer and nothing
    was drawn. *)
Theorem answers_in_a_row (h : Host) (char : string) (isCorrect : bool)
    (n : nat) (w : World) :
  characterWeights w !! char = None ->
  let w' := run_calls h (answers char isCorrect (S n)) w in
  exists misses : list Z,
    characterWeights w' !! char =
      Some (if isCorrect
            then mkCharacterWeight (S n) 0 misses
                   (Date_now h (clock_reads w + n)) (S n) 0
            else mkCharacterWeight 0 (S n) misses
                   (Date_now h (clock_reads w + n)) 0 (S n)) /\
    (if isCorrect then misses = []
     else exists older, misses = older ++ [Date_now h (clock_reads w + n)]) /\
    clock_reads w' = (clock_reads w + S n)%nat /\
    rng_calls w' = rng_calls w.
Proof. exact (run_answers h char isCorrect n w). Qed.

Lemma answers_in_a_row_witness :
  exists misses : list Z,
    characterWeights
      (run_calls slow_host (answers "あ" true 3) createAdaptiveSelector) !! "あ"
      = Some (mkCharacterWeight 3 0 misses 20000 3 0) /\
    misses = [].
Proof.
  destruct (answers_in_a_row slow_host "あ" true 2 createAdaptiveSelector)
    as (misses & Hlook & Hmisses & _).
  - reflexivity.
  - exists misses. split; [exact Hlook | exact Hmisses].
Defined.

Lemma accuracyWeight_perfect (c : nat) :
  (0 < c)%nat -> 0 < accuracyWeight c 0 <= 0.125.
Proof.
  intros Hc. rewrite accuracyWeight_of_accuracy. unfold accuracy.
  replace (0 <? c + 0)%nat with true by (symmetry; apply Nat.ltb_lt; lia).
  rewrite Nat.add_0_r.
  assert (Hpos : 0 < INR c) by (apply lt_0_INR; exact Hc).
  replace (6 * (INR c / INR c) - 3) with 3
    by (unfold Rdiv; rewrite Rinv_r by lra; lra).
  pose proof exp_3_lower as He.
  assert (Hinv : 0 < / (1 + exp 3)) by (apply Rinv_0_lt_compat; lra).
  split; [unfold Rdiv; lra |].
  apply (Rmult_le_reg_r (1 + exp 3)); [lra |].
  unfold Rdiv. rewrite Rmult_assoc, Rinv_l by lra. lra.
Qed.

Lemma masteryCooldown_from_4 (n : nat) :
  (4 <= n)%nat -> 0 < masteryCooldown n <= 0.7.
Proof.
  intros Hn. rewrite masteryCooldown_closed.
  destruct (Nat.ltb_spec n 3); [lia |].
  destruct (Nat.ltb_spec n 7) as [H7|H7]; [| lra].
  assert (H4 : 4 <= INR n) by (apply (le_INR 4) in Hn; simpl in Hn; lra).
  assert (H6 : INR n <= 6)
    by (assert (Hn6 : (n <= 6)%nat) by lia;
        apply (le_INR n 6) in Hn6; simpl in Hn6; lra).
  lra.
Qed.

(** X10. A mastered character sits on the floor: after four or more
    correct answers in a row for a character that had no record, its
    weight is exactly 0.1, at every clock value and in every pool, for
    every jitter draw up to 1. *)
Theorem mastered_at_floor (h : Host) (char : string) (allChars : list string)
    (m : nat) (w : World) :
  characterWeights w !! char = None ->
  (4 <= m)%nat ->
  random_real h (rng_calls w) 0 1 <= 1 ->
  fst (calculateWeight h char allChars (run_calls h (answers char true m) w))
    = 0.1.
Proof.
  intros Hnone Hm Hu. destruct m as [|n]; [lia |].
  destruct (run_answers h char true n w Hnone)
    as (misses & Hlook & -> & Hclock & Hrng).
  rewrite calculateWeight_run, Hlook, Hrng, Hclock. cbn [fst].
  set (now := Date_now h (clock_reads w + S n)).
  set (u := random_real h (rng_calls w) 0 1) in *.
  unfold finalWeight. cbn [correct wrong recentMisses lastSeen
    consecutiveCorrect consecutiveWrong].
  change (recentMissWeight now []) with 0.
  change (streakPenalty 0) with 1.
  pose proof (accuracyWeight_perfect (S n) ltac:(lia)) as HA.
  pose proof (masteryCooldown_from_4 (S n) Hm) as HM.
  assert (HF : 0 < freshnessBoost now (Date_now h (clock_reads w + n)) <= 1)
    by (rewrite freshnessBoost_ms; destruct (_ <? _)%Z; lra).
  assert (HE : explorationFactor allChars u <= 1)
    by (unfold explorationFactor; destruct (20 <? length allChars)%nat; lra).
  set (A := accuracyWeight (S n) 0) in *.
  set (Mc := masteryCooldown (S n)) in *.
  set (F := freshnessBoost now (Date_now h (clock_reads w + n))) in *.
  set (E := explorationFactor allChars u) in *.
  assert (HAM : 0 <= A * Mc <= 0.125 * 0.7)
    by (split; [apply Rmult_le_pos; lra | apply Rmult_le_compat; lra]).
  assert (HQ : 0 <= A * Mc * F <= 0.125 * 0.7 * 1)
    by (split; [apply Rmult_le_pos; lra | apply Rmult_le_compat; lra]).
  assert (HP : A * Mc * F * E <= A * Mc * F * 1)
    by (apply Rmult_le_compat_l; lra).
  replace (A * (1 + 0) * 1 * Mc * F * E) with (A * Mc * F * E) by ring.
  unfold clamp. apply Rmax_left.
  apply Rle_trans with (A * Mc * F * E); [apply Rmin_r | lra].
Qed.

Lemma mastered_at_floor_witness :
  fst (calculateWeight slow_host "あ" pool_a_i_u
         (run_calls slow_host (answers "あ" true 4) createAdaptiveSelector))
    = 0.1.
Proof.
  apply (mastered_at_floor slow_host "あ" pool_a_i_u 4 createAdaptiveSelector).
  - reflexivity.
  - lia.
  - simpl. lra.
Defined.

(** ** Further properties of the selection *)

Lemma availableChars_incl (chars : list string) (excludeChar : option string)
    (c : string) :
  In c (availableChars chars excludeChar) -> In c chars.
Proof.
  unfold availableChars. destruct excludeChar as [x|]; [| tauto].
  destruct (truthy (Some x)); [| tauto].
  rewrite filter_In. tauto.
Qed.

(** X11. On an empty pool [selectWeightedCharacter] returns [undefined],
    whatever the exclusion argument is, and touches nothing: no record, no
    clock read, no draw. *)
Theorem selectWeightedCharacter_empty_pool (h : Host)
    (excludeChar : option string) (w : World) :
  selectWeightedCharacter h [] excludeChar w = (None, w).
Proof.
  unfold selectWeightedCharacter, availableChars.
  destruct excludeChar as [x|]; [destruct (truthy (Some x)) |]; reflexivity.
Qed.

Lemma totalWeight_acc (weights : list (string * R)) (acc : R) :
  fold_left (fun sum w => sum + snd w) weights acc = acc + totalWeight weights.
Proof.
  unfold totalWeight. revert acc.
  induction weights as [|p l IH]; intros acc; simpl.
  - lra.
  - rewrite (IH (acc + snd p)), (IH (0 + snd p)). lra.
Qed.

Lemma totalWeight_cons (c : string) (x : R) (weights : list (string * R)) :
  totalWeight ((c, x) :: weights) = x + totalWeight weights.
Proof.
  unfold totalWeight at 1. simpl. rewrite totalWeight_acc. lra.
Qed.

Lemma totalWeight_nonneg (weights : list (string * R)) :
  (forall p, In p weights -> 0 <= snd p) -> 0 <= totalWeight weights.
Proof.
  induction weights as [|[c x] l IH]; intros Hpos.
  - unfold totalWeight. simpl. lra.
  - rewrite totalWeight_cons.
    pose proof (Hpos (c, x) (or_introl eq_refl)) as Hx. simpl in Hx.
    assert (0 <= totalWeight l) by (apply IH; intros p Hp; apply Hpos; right; exact Hp).
    lra.
Qed.




Lemma calculateWeight_in_range (h : Host) (char : string)
    (allChars : list string) (w : World) :
  0.1 <= fst (calculateWeight h char allChars w) <= 5.
Proof.
  rewrite calculateWeight_run.
  destruct (characterWeights w !! char); simpl; [apply clamp_bounds | lra].
Qed.

Lemma mapM_weights_in_range (h : Host) (chars l : list string) (w : World) :
  forall p, In p (fst (mapM (fun char =>
                               do weight <- calculateWeight h char chars;
                               ret (char, weight)) l w)) ->
            0.1 <= snd p <= 5.
Proof.
  revert w. induction l as [|a l IH]; intros w p; simpl.
  - intros [].
  - unfold bind at 1 2.
    pose proof (calculateWeight_in_range h a chars w) as Ha.
    destruct (calculateWeight h a chars w) as [x w1]. unfold ret at 1.
    specialize (IH w1). unfold bind.
    destruct (mapM _ l w1) as [bs w2]. simpl in *.
    intros [<-|Hin]; [simpl; exact Ha | apply IH; exact Hin].
Qed.

Lemma totalWeight_bounds (weights : list (string * R)) :
  (forall p, In p weights -> 0.1 <= snd p <= 5) ->
  0.1 * INR (length weights) <= totalWeight weights <= 5 * INR (length weights).
Proof.
  induction weights as [|[c x] l IH]; intros Hall.
  - unfold totalWeight. simpl. lra.
  - rewrite totalWeight_cons. cbn [length]. rewrite S_INR.
    pose proof (Hall (c, x) (or_introl eq_refl)) as Hx. simpl in Hx.
    assert (0.1 * INR (length l) <= totalWeight l <= 5 * INR (length l))
      by (apply IH; intros p Hp; apply Hall; right; exact Hp).
    lra.
Qed.

Lemma totalWeight_first (weights : list (string * R)) :
  weights <> [] -> (forall p, In p weights -> 0.1 <= snd p) ->
  0.1 <= totalWeight weights.
Proof.
  intros Hne Hall. destruct weights as [|[c x] l]; [contradiction |].
  rewrite totalWeight_cons.
  pose proof (Hall (c, x) (or_introl eq_refl)) as Hx. simpl in Hx.
  assert (0 <= totalWeight l).
  { apply totalWeight_nonneg. intros p Hp.
    pose proof (Hall p (or_intror Hp)). lra. }
  lra.
Qed.

(** X13. The weights that [selectWeightedCharacter] computes pair the
    candidates, in order, with their weights; their total is never
    negative and at most [5 * n] for [n] candidates, and it is at least
    0.1 as soon as there is a candidate, so the range [[0, totalWeight)]
    of the draw is not empty. *)
Theorem candidate_totalWeight_bounds (h : Host) (chars candidates : list string)
    (w : World) :
  let weights := fst (mapM (fun char =>
                              do weight <- calculateWeight h char chars;
                              ret (char, weight)) candidates w) in
  map fst weights = candidates /\
  0 <= totalWeight weights <= 5 * INR (length candidates) /\
  (candidates <> [] -> 0.1 <= totalWeight weights).
Proof.
  intros weights.
  pose proof (mapM_weights_chars h chars candidates w) as Hchars.
  fold weights in Hchars. split; [exact Hchars |].
  assert (Hlen : length candidates = length weights)
    by (rewrite <- Hchars at 1; apply length_map).
  pose proof (mapM_weights_in_range h chars candidates w) as Hrange.
  fold weights in Hrange.
  pose proof (totalWeight_bounds weights Hrange) as Hb.
  pose proof (pos_INR (length weights)) as Hn.
  rewrite Hlen. split; [lra |].
  intros Hne. apply totalWeight_first.
  - intros Hnil. apply Hne. rewrite <- Hchars, Hnil. reflexivity.
  - intros p Hp. apply Hrange. exact Hp.
Qed.

Lemma candidate_totalWeight_bounds_witness :
  0.1 <= totalWeight
           (fst (mapM (fun char =>
                         do weight <- calculateWeight instant_host char pool_a_i_u;
                         ret (char, weight)) pool_a_i_u createAdaptiveSelector)).
Proof.
  destruct (candidate_totalWeight_bounds instant_host pool_a_i_u pool_a_i_u
              createAdaptiveSelector) as (_ & _ & Hfirst).
  apply Hfirst. discriminate.
Defined.

Lemma index_in_range {A} (arr : list A) (i : Z) :
  (0 <= i < Z.of_nat (length arr))%Z -> exists a, index arr i = Some a.
Proof.
  intros Hi. unfold index.
  destruct (Z.ltb_spec i 0) as [Hneg|_]; [lia |].
  destruct (nth_error arr (Z.to_nat i)) as [a|] eqn:Enth; [eexists; reflexivity |].
  apply nth_error_None in Enth. lia.
Qed.

(** X14. For a non-empty pool and a generator that keeps
    [random.integer(lo, hi)] within [lo] and [hi],
    [selectWeightedCharacter] returns a character of the pool, and a
    candidate whenever the exclusion leaves one, whatever value
    [random.real] returns: either the loop returns a candidate, or it runs
    off the end and the fallback indexes the candidates within bounds. *)
Theorem selectWeightedCharacter_member (h : Host) (chars : list string)
    (excludeChar : option string) (w : World) :
  chars <> [] ->
  integer_in_range h ->
  exists char : string,
    fst (selectWeightedCharacter h chars excludeChar w) = Some char /\
    In char chars /\
    (availableChars chars excludeChar <> [] ->
       In char (availableChars chars excludeChar)).
Proof.
  intros Hne Hint. unfold selectWeightedCharacter.
  destruct (availableChars chars excludeChar) as [|a l] eqn:Eav.
  - destruct chars as [|c rest]; [contradiction |].
    exists c. simpl. split; [reflexivity |].
    split; [left; reflexivity | intros Hcontra; contradiction].
  - assert (Hincl : forall c, In c (a :: l) -> In c chars)
      by (intros c Hc; apply (availableChars_incl chars excludeChar);
          rewrite Eav; exact Hc).
    cbn [length Nat.eqb]. destruct l as [|b l'].
    + exists a. simpl. split; [reflexivity |].
      split; [apply Hincl; left; reflexivity | intros _; left; reflexivity].
    + cbn [length Nat.eqb]. unfold bind at 1.
      pose proof (mapM_weights_chars h chars (a :: b :: l') w) as Hchars.
      destruct (mapM _ (a :: b :: l') w) as [weights w1].
      cbn [fst] in Hchars.
      unfold bind at 1, real_ at 1.
      destruct (walk weights _) as [c|] eqn:Hwalk.
      * exists c. unfold ret. cbn [fst].
        apply walk_In in Hwalk. rewrite Hchars in Hwalk.
        split; [reflexivity |]. split; [apply Hincl; exact Hwalk |].
        intros _. exact Hwalk.
      * unfold bind, integer_, ret. cbn [fst rng_calls].
        set (i := random_integer h _ 0 _).
        assert (Hi : (0 <= i <= Z.of_nat (S (S (length l'))) - 1)%Z)
          by (apply Hint; lia).
        destruct (index_in_range (a :: b :: l') i) as [c Hc];
          [cbn [length]; lia |].
        exists c. split; [exact Hc |]. apply index_In in Hc.
        split; [apply Hincl; exact Hc | intros _; exact Hc].
Qed.

Lemma selectWeightedCharacter_member_witness :
  exists char : string,
    fst (selectWeightedCharacter instant_host pool_a_i_u None
           createAdaptiveSelector) = Some char /\
    In char pool_a_i_u.
Proof.
  destruct (selectWeightedCharacter_member instant_host pool_a_i_u None
              createAdaptiveSelector) as (char & Hres & Hin & _).
  - discriminate.
  - intros k lo hi Hle. simpl. lia.
  - exists char. split; [exact Hres | exact Hin].
Defined.

(** ** Further properties of the records *)

(** X15. [markCharacterSeen char], run at clock value [now], only sets
    [lastSeen]: an existing record keeps its four counters and its miss
    list, a missing one is created with counters 0 and no miss; no other
    character changes, the clock is read once and nothing is drawn. *)
Theorem markCharacterSeen_spec (h : Host) (char : string) (w : World) :
  let now := Date_now h (clock_reads w) in
  let w' := snd (markCharacterSeen h char w) in
  (forall e : CharacterWeight, characterWeights w !! char = Some e ->
     characterWeights w' !! char =
       Some (mkCharacterWeight (correct e) (wrong e) (recentMisses e) now
               (consecutiveCorrect e) (consecutiveWrong e))) /\
  (characterWeights w !! char = None ->
     characterWeights w' !! char = Some (mkCharacterWeight 0 0 [] now 0 0)) /\
  (forall other : string, other <> char ->
     characterWeights w' !! other = characterWeights w !! other) /\
  clock_reads w' = S (clock_reads w) /\ rng_calls w' = rng_calls w.
Proof.
  intros now w'. subst w'. rewrite markCharacterSeen_run. cbn [snd
    characterWeights clock_reads rng_calls]. fold now.
  split; [intros e ->; apply lookup_insert_eq |].
  split; [intros ->; apply lookup_insert_eq |].
  split; [intros other Hne; apply lookup_insert_ne; congruence |].
  split; reflexivity.
Qed.

Lemma markCharacterSeen_spec_witness :
  characterWeights
    (snd (markCharacterSeen slow_host "あ"
            (mkWorld {[ "あ" := mkCharacterWeight 2 1 [0%Z] 0 0 1 ]} 1 0))) !! "あ"
    = Some (mkCharacterWeight 2 1 [0%Z] 10000 0 1) /\
  characterWeights
    (snd (markCharacterSeen slow_host "い"
            (mkWorld {[ "あ" := mkCharacterWeight 2 1 [0%Z] 0 0 1 ]} 1 0))) !! "い"
    = Some (mkCharacterWeight 0 0 [] 10000 0 0) /\
  characterWeights
    (snd (markCharacterSeen slow_host "い"
            (mkWorld {[ "あ" := mkCharacterWeight 2 1 [0%Z] 0 0 1 ]} 1 0))) !! "あ"
    = Some (mkCharacterWeight 2 1 [0%Z] 0 0 1).
Proof.
  split; [| split].
  - destruct (markCharacterSeen_spec slow_host "あ"
                (mkWorld {[ "あ" := mkCharacterWeight 2 1 [0%Z] 0 0 1 ]} 1 0))
      as (Hsome & _).
    apply (Hsome (mkCharacterWeight 2 1 [0%Z] 0 0 1)). reflexivity.
  - destruct (markCharacterSeen_spec slow_host "い"
                (mkWorld {[ "あ" := mkCharacterWeight 2 1 [0%Z] 0 0 1 ]} 1 0))
      as (_ & Hnone & _).
    apply Hnone. reflexivity.
  - destruct (markCharacterSeen_spec slow_host "い"
                (mkWorld {[ "あ" := mkCharacterWeight 2 1 [0%Z] 0 0 1 ]} 1 0))
      as (_ & _ & Hother & _).
    rewrite (Hother "あ"); [reflexivity | discriminate].
Defined.

(** X16. After [reset] no character is tracked: [getCharacterWeight]
    returns [undefined] and [calculateWeight] returns 1 for every
    character, under every host; the counters of the host are not
    touched. *)
Theorem reset_clears (h : Host) (char : string) (allChars : list string)
    (w : World) :
  fst (getCharacterWeight char (snd (reset w))) = None /\
  fst (calculateWeight h char allChars (snd (reset w))) = 1 /\
  clock_reads (snd (reset w)) = clock_reads w /\
  rng_calls (snd (reset w)) = rng_calls w.
Proof.
  unfold reset, map_clear. cbn [snd]. rewrite calculateWeight_run.
  unfold getCharacterWeight, map_get. cbn [fst characterWeights].
  rewrite lookup_empty. repeat split; reflexivity.
Qed.

Lemma recordAnswer_spec_consistent (now : Z) (isCorrect : bool)
    (existing : option CharacterWeight) :
  (forall e, existing = Some e -> counters_consistent e) ->
  counters_consistent (recordAnswer_spec now isCorrect existing).
Proof.
  intros Hex. unfold counters_consistent.
  destruct existing as [e|], isCorrect; simpl; try lia.
  - destruct (Hex e eq_refl) as (Hc & Hw & Hm). lia.
  - destruct (Hex e eq_refl) as (Hc & Hw & Hm).
    pose proof (filter_length_le (fun t => (now - t <? 120000)%Z)
                  (recentMisses e ++ [now])) as Hf.
    unfold pruned. rewrite length_app in Hf. simpl in Hf. lia.
Qed.

Lemma run_call_consistent (h : Host) (c : Call) (w : World) :
  map_Forall (fun _ e => counters_consistent e) (characterWeights w) ->
  map_Forall (fun _ e => counters_consistent e) (characterWeights (run_call h c w)).
Proof.
  intros Hinv. destruct c as [chars x|char isCorrect|char| |char]; simpl.
  - rewrite selectWeightedCharacter_store. exact Hinv.
  - rewrite updateCharacterWeight_run. simpl.
    apply map_Forall_insert_2; [| exact Hinv].
    apply recordAnswer_spec_consistent. intros e He. exact (Hinv char e He).
  - rewrite markCharacterSeen_run. simpl.
    apply map_Forall_insert_2; [| exact Hinv].
    destruct (characterWeights w !! char) as [e|] eqn:Elook.
    + exact (Hinv char e Elook).
    + unfold counters_consistent. simpl. lia.
  - apply map_Forall_empty.
  - exact Hinv.
Qed.

(** X17. In every world reached from a fresh selector by any sequence of
    calls, every record has [consecutiveCorrect <= correct],
    [consecutiveWrong <= wrong], and a miss list no longer than [wrong]. *)
Theorem counters_stay_consistent (h : Host) (calls : list Call)
    (char : string) (e : CharacterWeight) :
  characterWeights (run_calls h calls createAdaptiveSelector) !! char = Some e ->
  (consecutiveCorrect e <= correct e)%nat /\
  (consecutiveWrong e <= wrong e)%nat /\
  (length (recentMisses e) <= wrong e)%nat.
Proof.
  assert (Hall : forall cs w,
             map_Forall (fun _ e => counters_consistent e) (characterWeights w) ->
             map_Forall (fun _ e => counters_consistent e)
               (characterWeights (run_calls h cs w))).
  { induction cs as [|c cs IH]; intros w Hinv; simpl; [exact Hinv |].
    apply IH. apply run_call_consistent. exact Hinv. }
  intros Hlook.
  exact (Hall calls createAdaptiveSelector ltac:(apply map_Forall_empty)
           char e Hlook).
Qed.

Lemma counters_stay_consistent_witness :
  (consecutiveCorrect (mkCharacterWeight 1 2 [0%Z; 0%Z] 0 1 0) <= 1)%nat /\
  (consecutiveWrong (mkCharacterWeight 1 2 [0%Z; 0%Z] 0 1 0) <= 2)%nat /\
  (length (recentMisses (mkCharacterWeight 1 2 [0%Z; 0%Z] 0 1 0)) <= 2)%nat.
Proof.
  apply (counters_stay_consistent instant_host
           [CallUpdate "あ" false; CallUpdate "あ" false; CallUpdate "あ" true]
           "あ").
  vm_compute. reflexivity.
Defined.

Lemma run_call_keeps (h : Host) (c : Call) (w : World) (char : string)
    (e : CharacterWeight) :
  c <> CallReset -> characterWeights w !! char = Some e ->
  exists e' : CharacterWeight,
    characterWeights (run_call h c w) !! char = Some e' /\
    (correct e <= correct e')%nat /\ (wrong e <= wrong e')%nat.
Proof.
  intros Hc Hlook.
  destruct c as [chars x|char' isCorrect|char'| |char']; simpl.
  - rewrite selectWeightedCharacter_store. exists e. split; [exact Hlook | lia].
  - rewrite updateCharacterWeight_run. simpl.
    destruct (decide (char' = char)) as [->|Hne].
    + rewrite lookup_insert_eq, Hlook. eexists. split; [reflexivity |].
      destruct isCorrect; simpl; lia.
    + rewrite lookup_insert_ne by exact Hne. exists e. split; [exact Hlook | lia].
  - rewrite markCharacterSeen_run. simpl.
    destruct (decide (char' = char)) as [->|Hne].
    + rewrite lookup_insert_eq, Hlook. eexists. split; [reflexivity |].
      simpl. lia.
    + rewrite lookup_insert_ne by exact Hne. exists e. split; [exact Hlook | lia].
  - contradiction.
  - exists e. split; [exact Hlook | lia].
Qed.

(** X18. Records are never dropped one by one, and their lifetime
    counters never go down: along any sequence of calls that contains no
    [reset], a character that has a record keeps one, with [correct] and
    [wrong] at least what they were. *)
Theorem records_persist (h : Host) (calls : list Call) (w : World)
    (char : string) (e : CharacterWeight) :
  (forall c, In c calls -> c <> CallReset) ->
  characterWeights w !! char = Some e ->
  exists e' : CharacterWeight,
    characterWeights (run_calls h calls w) !! char = Some e' /\
    (correct e <= correct e')%nat /\ (wrong e <= wrong e')%nat.
Proof.
  revert w e. induction calls as [|c cs IH]; intros w e Hno Hlook; simpl.
  - exists e. split; [exact Hlook | lia].
  - destruct (run_call_keeps h c w char e (Hno c (or_introl eq_refl)) Hlook)
      as (e1 & Hlook1 & Hc1 & Hw1).
    destruct (IH (run_call h c w) e1
                (fun c' Hc' => Hno c' (or_intror Hc')) Hlook1)
      as (e' & Hlook' & Hc' & Hw').
    exists e'. split; [exact Hlook' | lia].
Qed.

Lemma records_persist_witness :
  exists e' : CharacterWeight,
    characterWeights
      (run_calls instant_host
         [CallMarkSeen "あ"; CallUpdate "い" true; CallSelect pool_a_i_u None]
         (mkWorld {[ "あ" := mkCharacterWeight 2 1 [0%Z] 0 0 1 ]} 0 0)) !! "あ"
      = Some e' /\
    (2 <= correct e')%nat /\ (1 <= wrong e')%nat.
Proof.
  apply (records_persist instant_host
           [CallMarkSeen "あ"; CallUpdate "い" true; CallSelect pool_a_i_u None]
           (mkWorld {[ "あ" := mkCharacterWeight 2 1 [0%Z] 0 0 1 ]} 0 0)
           "あ" (mkCharacterWeight 2 1 [0%Z] 0 0 1)).
  - intros c [<-|[<-|[<-|[]]]]; discriminate.
  - reflexivity.
Defined.

(** X19. Marking a character as seen before its first answer does not
    change what the answer records: for a character without a record,
    [markCharacterSeen] followed by [updateCharacterWeight] leaves exactly
    the record that the answer alone seeds at that clock value. *)
Theorem markSeen_then_answer (h : Host) (char : string) (isCorrect : bool)
    (w : World) :
  characterWeights w !! char = None ->
  characterWeights
    (run_calls h [CallMarkSeen char; CallUpdate char isCorrect] w) !! char
  = Some (recordAnswer_spec (Date_now h (S (clock_reads w))) isCorrect None).
Proof.
  intros Hnone. unfold run_calls. cbn [fold_left run_call].
  rewrite markCharacterSeen_run, Hnone. cbn [snd].
  rewrite updateCharacterWeight_run. cbn [snd characterWeights clock_reads].
  rewrite !lookup_insert_eq.
  destruct isCorrect; cbn [recordAnswer_spec correct wrong recentMisses
    consecutiveCorrect consecutiveWrong]; [reflexivity |].
  unfold pruned. cbn [app List.filter].
  replace (Date_now h (S (clock_reads w)) - Date_now h (S (clock_reads w))
           <? 120000)%Z with true by (symmetry; apply Z.ltb_lt; lia).
  reflexivity.
Qed.

Lemma markSeen_then_answer_witness :
  characterWeights
    (run_calls slow_host [CallMarkSeen "あ"; CallUpdate "あ" false]
       createAdaptiveSelector) !! "あ"
  = Some (recordAnswer_spec 10000 false None).
Proof.
  apply (markSeen_then_answer slow_host "あ" false createAdaptiveSelector).
  reflexivity.
Defined.

(** ** The module-level selector *)

Lemma call_method_global {A} (ref : nat) (method : M A) (p p' : Program) (a : A) :
  call_method ref method p = Some (a, p') ->
  globalSelector p' = globalSelector p /\ next_instance p' = next_instance p /\
  (forall other : nat, other <> ref -> instances p' !! other = instances p !! other).
Proof.
  unfold call_method. destruct (instances p !! ref) as [weights|]; [| discriminate].
  destruct (method _) as [a' w']. intros [= _ <-]. simpl.
  split; [reflexivity |]. split; [reflexivity |].
  intros other Hne. apply lookup_insert_ne. congruence.
Qed.

(** X20. [getGlobalAdaptiveSelector] creates the instance on the first
    call only: while the variable is [null] it allocates a selector with
    an empty map, without touching an instance that exists already, and
    stores its reference; from then on every call returns that same
    reference and changes nothing, also after methods were called on any
    instance in between. *)
Theorem getGlobalAdaptiveSelector_lazy (p : Program) :
  let ref := fst (getGlobalAdaptiveSelector p) in
  let p1 := snd (getGlobalAdaptiveSelector p) in
  globalSelector p1 = Some ref /\
  getGlobalAdaptiveSelector p1 = (ref, p1) /\
  (forall r : nat, globalSelector p = Some r -> ref = r /\ p1 = p) /\
  (globalSelector p = None -> program_ok p ->
     instances p1 !! ref = Some ∅ /\
     forall other : nat, is_Some (instances p !! other) ->
       instances p1 !! other = instances p !! other) /\
  (forall (target : nat) (method : M unit) (p2 : Program),
     call_method target method p1 = Some (tt, p2) ->
     getGlobalAdaptiveSelector p2 = (ref, p2)).
Proof.
  intros ref p1. subst ref p1.
  destruct (globalSelector p) as [r|] eqn:Eg.
  - assert (Hget : getGlobalAdaptiveSelector p = (r, p))
      by (unfold getGlobalAdaptiveSelector; rewrite Eg; reflexivity).
    rewrite !Hget. cbn [fst snd]. rewrite Hget.
    split; [exact Eg |].
    split; [reflexivity |].
    split; [intros r' [= <-]; split; reflexivity |].
    split; [discriminate |].
    intros target method p2 Hcall.
    destruct (call_method_global target method p p2 tt Hcall) as (Hg & _).
    unfold getGlobalAdaptiveSelector. rewrite Hg, Eg. reflexivity.
  - assert (Hget : getGlobalAdaptiveSelector p =
              (next_instance p,
               mkProgram (<[next_instance p := ∅]> (instances p))
                 (S (next_instance p)) (Some (next_instance p))
                 (program_clock_reads p) (program_rng_calls p)))
      by (unfold getGlobalAdaptiveSelector; rewrite Eg; reflexivity).
    rewrite !Hget. cbn [fst snd instances globalSelector].
    split; [reflexivity |].
    split; [reflexivity |].
    split; [discriminate |].
    split.
    + intros _ [Hbelow _]. split; [apply lookup_insert_eq |].
      intros other Hsome. apply lookup_insert_ne.
      specialize (Hbelow other Hsome). lia.
    + intros target method p2 Hcall.
      destruct (call_method_global target method _ p2 tt Hcall) as (Hg & _).
      unfold getGlobalAdaptiveSelector. rewrite Hg. reflexivity.
Qed.

Lemma getGlobalAdaptiveSelector_lazy_witness :
  instances (snd (getGlobalAdaptiveSelector module_loaded)) !! 0%nat = Some ∅ /\
  fst (getGlobalAdaptiveSelector
         (snd (getGlobalAdaptiveSelector module_loaded))) = 0%nat.
Proof.
  destruct (getGlobalAdaptiveSelector_lazy module_loaded)
    as (_ & _ & _ & Hfresh & _).
  destruct (getGlobalAdaptiveSelector_lazy
              (snd (getGlobalAdaptiveSelector module_loaded)))
    as (_ & _ & Hsame & _).
  split.
  - apply Hfresh; [reflexivity |].
    split; [intros r [x Hx]; discriminate | intros r Hr; discriminate].
  - destruct (Hsame 0%nat) as [Href _]; [reflexivity | exact Href].
Defined.

(** X21. [resetGlobalAdaptiveSelector] does nothing while the variable
    is [null] (it does not create the instance); otherwise it empties the
    map of the global instance and only that: the variable, every other
    instance and the counters of the host stay as they were. *)
Theorem resetGlobalAdaptiveSelector_spec (p : Program) :
  (globalSelector p = None -> resetGlobalAdaptiveSelector p = p) /\
  (forall (ref : nat) (weights : gmap string CharacterWeight),
     globalSelector p = Some ref -> instances p !! ref = Some weights ->
     let p' := resetGlobalAdaptiveSelector p in
     instances p' !! ref = Some ∅ /\
     globalSelector p' = Some ref /\
     (forall other : nat, other <> ref ->
        instances p' !! other = instances p !! other) /\
     program_clock_reads p' = program_clock_reads p /\
     program_rng_calls p' = program_rng_calls p).
Proof.
  unfold resetGlobalAdaptiveSelector. split.
  - intros ->. reflexivity.
  - intros ref weights Hg Hinst. rewrite Hg. unfold call_method. rewrite Hinst.
    unfold reset, map_clear. cbn.
    split; [apply lookup_insert_eq |]. split; [exact Hg |].
    split; [intros other Hne; apply lookup_insert_ne; congruence |].
    split; reflexivity.
Qed.

Lemma resetGlobalAdaptiveSelector_spec_witness :
  resetGlobalAdaptiveSelector module_loaded = module_loaded /\
  instances
    (resetGlobalAdaptiveSelector
       (mkProgram {[ 0%nat := {[ "あ" := mkCharacterWeight 1 0 [] 0 1 0 ]} ]}
          1 (Some 0%nat) 1 0)) !! 0%nat = Some ∅.
Proof.
  split.
  - destruct (resetGlobalAdaptiveSelector_spec module_loaded) as [Hnull _].
    apply Hnull. reflexivity.
  - destruct (resetGlobalAdaptiveSelector_spec
                (mkProgram {[ 0%nat := {[ "あ" := mkCharacterWeight 1 0 [] 0 1 0 ]} ]}
                   1 (Some 0%nat) 1 0)) as [_ Hreset].
    destruct (Hreset 0%nat {[ "あ" := mkCharacterWeight 1 0 [] 0 1 0 ]}
                eq_refl eq_refl) as (Hempty & _).
    exact Hempty.
Defined.

(** X22. Two wrong answers in a row for a character without a record:
    when the clock advanced by 120 seconds or more between them, the first
    miss is pruned and the miss list holds the second timestamp only;
    when it advanced by less (or went back), both timestamps are kept, in
    order. *)
Theorem second_miss_prunes_first (h : Host) (char : string) (w : World) :
  characterWeights w !! char = None ->
  let t1 := Date_now h (clock_reads w) in
  let t2 := Date_now h (S (clock_reads w)) in
  let w' := run_calls h [CallUpdate char false; CallUpdate char false] w in
  ((120000 <= t2 - t1)%Z ->
     characterWeights w' !! char = Some (mkCharacterWeight 0 2 [t2] t2 0 2)) /\
  ((t2 - t1 < 120000)%Z ->
     characterWeights w' !! char = Some (mkCharacterWeight 0 2 [t1; t2] t2 0 2)).
Proof.
  intros Hnone t1 t2 w'.
  assert (Hw : characterWeights w' !! char =
               Some (mkCharacterWeight 0 2 (pruned t2 [t1; t2]) t2 0 2)).
  { subst w'. unfold run_calls. cbn [fold_left run_call].
    rewrite !updateCharacterWeight_run.
    cbn [snd characterWeights clock_reads]. rewrite !lookup_insert_eq, Hnone.
    reflexivity. }
  rewrite Hw. unfold pruned. cbn [List.filter].
  replace (t2 - t2 <? 120000)%Z with true by (symmetry; apply Z.ltb_lt; lia).
  destruct (Z.ltb_spec (t2 - t1) 120000); split; intros ?; try lia; reflexivity.
Qed.

Lemma second_miss_prunes_first_witness :
  characterWeights
    (run_calls (lowest_draw_host (fun k => (Z.of_nat k * 120000)%Z))
       [CallUpdate "あ" false; CallUpdate "あ" false] createAdaptiveSelector)
    !! "あ" = Some (mkCharacterWeight 0 2 [120000%Z] 120000 0 2) /\
  characterWeights
    (run_calls slow_host
       [CallUpdate "あ" false; CallUpdate "あ" false] createAdaptiveSelector)
    !! "あ" = Some (mkCharacterWeight 0 2 [0%Z; 10000%Z] 10000 0 2).
Proof.
  split.
  - destruct (second_miss_prunes_first
                (lowest_draw_host (fun k => (Z.of_nat k * 120000)%Z)) "あ"
                createAdaptiveSelector) as [Hfar _]; [reflexivity |].
    apply Hfar. simpl. lia.
  - destruct (second_miss_prunes_first slow_host "あ" createAdaptiveSelector)
      as [_ Hnear]; [reflexivity |].
    apply Hnear. simpl. lia.
Defined.
